(** * pulp_rpm.app.modulemd: module metadata decomposition and package reconciliation

    A shallow embedding of [pulp_rpm/app/modulemd.py]:
    - [resolve_module_packages]: aligns the packages of a repository version
      with the modules it contains;
    - [_create_snippet]: writes a modulemd snippet to a temporary file and
      wraps it in an unsaved artifact;
    - [parse_modulemd] and [parse_defaults]: turn a libmodulemd index into
      the dictionaries stored as content.

    Rows are identified by their primary key; model instances held in
    Python sets are told apart by their model class as well. *)

From stdpp Require Import gmap strings stringmap list fin_maps fin_sets.

#[local] Set Warnings "-clear-no-such-hyp".

(** ** The content store consumed by the reconciler *)

Module Store.

(** Rows of the three tables the reconciler queries.  [Content_pulp_type] is
    the master [Content] table (primary key to [pulp_type]),
    [Modulemd_objects] holds the [Modulemd] rows together with their
    many-to-many [packages] relation, and [Package_objects] the [Package]
    rows. *)
Record Database := {
  Content_pulp_type : gmap positive string;
  Modulemd_objects : gmap positive (gset positive);
  Package_objects : gset positive;
}.

(** Every [Package] row is a [Content] row of type [rpm.package] (the
    master/detail link maintained by the ORM on save). *)
Definition db_consistent (db : Database) : Prop :=
  ∀ p, p ∈ Package_objects db → Content_pulp_type db !! p = Some "rpm.package".

(** The model classes whose instances meet in the reconciler.  Two saved
    instances are equal, by [Model.__eq__], when they have the same concrete
    model and the same primary key: an instance is the pair of the two, and
    a [Package] instance never equals a [Content] instance. *)
Inductive model :=
  | Content_model
  | Package_model.

#[global] Instance model_eq_dec : EqDecision model.
Proof. solve_decision. Defined.

#[global] Instance model_countable : Countable model :=
  inj_countable'
    (λ cls, match cls with Content_model => false | Package_model => true end)
    (λ b : bool, if b then Package_model else Content_model)
    (λ cls, match cls with Content_model => eq_refl | Package_model => eq_refl end).

(** The instances of class [cls] a queryset yields for the rows [q], and
    the primary keys [pk__in] takes from a set of instances. *)
Definition instances (cls : model) (q : gset positive)
    : gset (model * positive) :=
  set_map (λ pk, (cls, pk)) q.

Definition primary_keys (s : gset (model * positive)) : gset positive :=
  set_map snd s.

(** Mutation calls received by a version under construction. *)
Inductive store_call :=
  | remove_content_call (q : gset positive)
  | add_content_call (q : gset positive).

(** A repository version: the content it holds, and the mutation calls it
    has received so far, oldest first. *)
Record RepositoryVersion := {
  content : gset positive;
  calls : list store_call;
}.

Definition remove_content (q : gset positive) (version : RepositoryVersion)
    : RepositoryVersion :=
  {| content := content version ∖ q;
     calls := calls version ++ [remove_content_call q] |}.

Definition add_content (q : gset positive) (version : RepositoryVersion)
    : RepositoryVersion :=
  {| content := content version ∪ q;
     calls := calls version ++ [add_content_call q] |}.

(** [version.content.filter(pulp_type=t)] *)
Definition content_filter (db : Database) (version : RepositoryVersion)
    (t : string) : gset positive :=
  filter (λ c, Content_pulp_type db !! c = Some t) (content version).

(** [Modulemd.objects.filter(pk__in=q)] *)
Definition Modulemd_filter_pk_in (db : Database) (q : gset positive)
    : gset positive :=
  filter (λ m, m ∈ q) (dom (Modulemd_objects db)).

(** [Package.objects.filter(pk__in=q)] *)
Definition Package_filter_pk_in (db : Database) (q : gset positive)
    : gset positive :=
  filter (λ p, p ∈ q) (Package_objects db).

(** [module.packages.all()] *)
Definition packages_all (db : Database) (module : positive) : gset positive :=
  match Modulemd_objects db !! module with
  | Some linked => filter (λ p, p ∈ linked) (Package_objects db)
  | None => ∅
  end.

End Store.

(** ** Package reconciliation *)

Module Reconciler.
Import Store.

Section WithDatabase.

Variable db : Database.

(** The nested helper of [resolve_module_packages]: the loop accumulates the
    packages of each module into one set. *)
Definition modules_packages (modules : gset positive) : gset positive :=
  foldl (λ packages module, packages ∪ packages_all db module) ∅
        (elements modules).

(** The querysets are lazy: each is a function of the version, run against
    the state the version has when the queryset is iterated. *)
Definition current_modules (version : RepositoryVersion) : gset positive :=
  Modulemd_filter_pk_in db (content_filter db version "rpm.modulemd").

Definition previous_modules (previous_version : RepositoryVersion)
    : gset positive :=
  Modulemd_filter_pk_in db (content_filter db previous_version "rpm.modulemd").

Definition added_modules (previous_version : option RepositoryVersion)
    (version : RepositoryVersion) : gset positive :=
  match previous_version with
  | Some previous => current_modules version ∖ previous_modules previous
  | None => current_modules version
  end.

Definition removed_modules (previous_version version : RepositoryVersion)
    : gset positive :=
  previous_modules previous_version ∖ current_modules version.

Definition current_module_packages (version : RepositoryVersion)
    : gset positive :=
  modules_packages (current_modules version).

Definition removed_module_packages (previous_version version : RepositoryVersion)
    : gset positive :=
  modules_packages (removed_modules previous_version version).

Definition packages_to_remove (previous_version version : RepositoryVersion)
    : gset positive :=
  removed_module_packages previous_version version
    ∖ current_module_packages version.

(** The [if previous_version:] block; without a previous version the
    version is passed on untouched. *)
Definition removal_pass (previous_version : option RepositoryVersion)
    (version : RepositoryVersion) : RepositoryVersion :=
  match previous_version with
  | Some previous =>
      remove_content
        (Package_filter_pk_in db (packages_to_remove previous version))
        version
  | None => version
  end.

(** Lines 42-44, evaluated on the version as the removal pass left it. *)
Definition added_module_packages (previous_version : option RepositoryVersion)
    (version : RepositoryVersion) : gset positive :=
  modules_packages (added_modules previous_version version).

Definition current_packages (version : RepositoryVersion) : gset positive :=
  content_filter db version "rpm.package".

(** Line 44: [added_module_packages] is a set of [Package] instances, and
    what [difference] takes away from it are the [Content] instances the
    queryset [current_packages] yields. *)
Definition packages_to_add (previous_version : option RepositoryVersion)
    (version : RepositoryVersion) : gset (model * positive) :=
  instances Package_model (added_module_packages previous_version version)
    ∖ instances Content_model (current_packages version).

Definition resolve_module_packages (version : RepositoryVersion)
    (previous_version : option RepositoryVersion) : RepositoryVersion :=
  let version := removal_pass previous_version version in
  add_content
    (Package_filter_pk_in db
       (primary_keys (packages_to_add previous_version version)))
    version.

End WithDatabase.

End Reconciler.

(** ** Effects: the working directory and exceptions *)

Module Effects.

Inductive exception :=
  | OSError
  | AttributeError
  | GLibError.

(** Computations that read and change the files of the working directory
    (file name to file content) and either raise or return. *)
Definition M (A : Type) : Type :=
  gmap string string → (exception + A) * gmap string string.

#[global] Instance M_ret : MRet M := λ A x cwd, (inr x, cwd).

#[global] Instance M_bind : MBind M := λ A B f m cwd,
  match m cwd with
  | (inr x, cwd') => f x cwd'
  | (inl e, cwd') => (inl e, cwd')
  end.

Definition raise {A : Type} (e : exception) : M A := λ cwd, (inl e, cwd).

(** [for x in l: acc = body(x, acc)] *)
Fixpoint for_ {A S : Type} (l : list A) (body : A → S → M S) (acc : S) : M S :=
  match l with
  | [] => mret acc
  | x :: l' => acc' ← body x acc; for_ l' body acc'
  end.

(** What the operating system may do to the calls of [_create_snippet]:
    the name [tempfile] settles on in a given directory ([None] when no file
    can be created), whether writing [data] to a file goes through and what
    is left in the file when it does not, and whether a file can be read
    back. *)
Inductive write_outcome :=
  | written
  | write_failed (partial : string).

Record OS := {
  mkstemp : gmap string string → option string;
  write_file : gmap string string → string → string → write_outcome;
  readable : gmap string string → string → bool;
}.

(** An operating system on which nothing goes wrong: a fresh name is always
    found, writes go through and files can be read back. *)
Definition reliable (os : OS) : Prop :=
  (∀ cwd, ∃ name, mkstemp os cwd = Some name ∧ cwd !! name = None)
  ∧ (∀ cwd name data, write_file os cwd name data = written)
  ∧ (∀ cwd name, readable os cwd name = true).

End Effects.

(** ** Snippet materialisation *)

Module Materializer.
Import Effects.

(** The unsaved [Artifact]: the file it points at and the digest and size
    computed from the bytes read. *)
Record Artifact := {
  file : string;
  size : nat;
  sha256 : string;
}.

Section WithEnvironment.

(** [hashlib]'s SHA-256 hex digest. *)
Variable hexdigest : string → string.
Variable os : OS.

(** [tempfile.NamedTemporaryFile(dir=os.getcwd(), delete=False)]: an empty
    file is created exclusively under a name not in use; nothing ever
    deletes it on close. *)
Definition NamedTemporaryFile : M string := λ cwd,
  match mkstemp os cwd with
  | Some name =>
      match cwd !! name with
      | None => (inr name, <[name := EmptyString]> cwd)
      | Some _ => (inl OSError, cwd)
      end
  | None => (inl OSError, cwd)
  end.

(** [with open(name, 'w') as snippet: snippet.write(data)] *)
Definition open_write (name data : string) : M unit := λ cwd,
  match write_file os cwd name data with
  | written => (inr (), <[name := data]> cwd)
  | write_failed partial => (inl OSError, <[name := partial]> cwd)
  end.

(** Modelled from the spec: [Artifact.init_and_validate] is pulpcore's; per
    the collaborator contract of section 6 it ingests the bytes found at the
    path and returns an unsaved handle carrying their strong content hash
    and their location.  The file is read, never moved or removed. *)
Definition init_and_validate (name : string) : M Artifact := λ cwd,
  match cwd !! name with
  | Some data =>
      if readable os cwd name
      then (inr {| file := name; size := String.length data;
                   sha256 := hexdigest data |}, cwd)
      else (inl OSError, cwd)
  | None => (inl OSError, cwd)
  end.

Definition _create_snippet (snippet_string : string) : M Artifact :=
  tmp_file ← NamedTemporaryFile;
  _ ← open_write tmp_file snippet_string;
  init_and_validate tmp_file.

End WithEnvironment.

End Materializer.

(** ** Metadata decomposition *)

Module Decomposer.
Import Effects Materializer.

(** A Python [dict] with string keys: insertion-ordered, and assigning to a
    key already present replaces its value where it stands. *)
Fixpoint dict_set {V : Type} (d : list (string * V)) (k : string) (v : V)
    : list (string * V) :=
  match d with
  | [] => [(k, v)]
  | (k', v') :: d' =>
      if decide (k' = k) then (k', v) :: d' else (k', v') :: dict_set d' k v
  end.

Fixpoint dict_get {V : Type} (d : list (string * V)) (k : string) : option V :=
  match d with
  | [] => None
  | (k', v') :: d' => if decide (k' = k) then Some v' else dict_get d' k
  end.

(** The libmodulemd handles, as the interface the code calls. *)
Record Dependencies := {
  get_runtime_modules : list string;
  get_runtime_streams : string → list string;
}.

Record ModuleStream := {
  module_name : string;
  stream_name : string;
  version : N;
  context : string;
  arch : string;
  get_rpm_artifacts : list string;
  get_dependencies : list Dependencies;
}.

Record Defaults := {
  get_default_stream : string;
  get_default_profiles_for_stream : string → list string;
}.

Record Module_ := {
  get_module_name : string;
  get_all_streams : list ModuleStream;
  get_defaults : option Defaults;
}.

Record ModuleIndex := {
  get_module : string → option Module_;
  get_default_streams : list (string * string);
}.

(** What a fresh [ModuleIndex] holds after the single [add_*] call made on
    it. *)
Inductive temp_index :=
  | add_module_stream (s : ModuleStream)
  | add_defaults (defaults : Defaults).

(** The dictionaries appended to [ret]; the keys are those of
    [PULP_MODULE_ATTR] and [PULP_MODULEDEFAULTS_ATTR], plus ["artifact"]. *)
Record modulemd_dict := {
  NAME : string;
  STREAM : string;
  VERSION : N;
  CONTEXT : string;
  ARCH : string;
  ARTIFACTS : string;
  DEPENDENCIES : string;
  artifact : Artifact;
}.

Record defaults_dict := {
  defaults_MODULE : string;
  defaults_STREAM : string;
  defaults_PROFILES : string;
  defaults_DIGEST : string;
  defaults_artifact : Artifact;
}.

Section WithLibraries.

(** [json]'s encoder for a string (quotes and escapes included), the SHA-256
    of [hashlib], the operating system, and libmodulemd's
    [dump_to_string] ([None] when it raises). *)
Variable encode_basestring : string → string.
Variable hexdigest : string → string.
Variable os : OS.
Variable dump_to_string : temp_index → option string.

(** [json.dumps] of a list of strings, and of a dict from strings to such
    lists, with the default separators. *)
Definition json_dumps_list (l : list string) : string :=
  "[" +:+ String.concat ", " (encode_basestring <$> l) +:+ "]".

Definition json_dumps_dict (d : list (string * list string)) : string :=
  "{" +:+ String.concat ", "
            ((λ kv, encode_basestring kv.1 +:+ ": " +:+ json_dumps_list kv.2)
               <$> d)
      +:+ "}".

(** Lines 88-93: the [dependencies] dict of one stream. *)
Definition add_clause (dependencies : list (string * list string))
    (dep : Dependencies) : list (string * list string) :=
  foldl (λ dependencies dependency,
           dict_set dependencies dependency (get_runtime_streams dep dependency))
        dependencies (get_runtime_modules dep).

Definition stream_dependencies (dependencies_list : list Dependencies)
    : list (string * list string) :=
  foldl add_clause [] dependencies_list.

(** The dictionary built for stream [s], given its snippet artifact. *)
Definition modulemd_of (s : ModuleStream) (snippet : Artifact) : modulemd_dict :=
  {| NAME := module_name s;
     STREAM := stream_name s;
     VERSION := version s;
     CONTEXT := context s;
     ARCH := arch s;
     ARTIFACTS := json_dumps_list (get_rpm_artifacts s);
     DEPENDENCIES := json_dumps_dict (stream_dependencies (get_dependencies s));
     artifact := snippet |}.

(** [_create_snippet(temp_index.dump_to_string())] *)
Definition snippet_of (index : temp_index) : M Artifact :=
  match dump_to_string index with
  | Some snippet_string => _create_snippet hexdigest os snippet_string
  | None => raise GLibError
  end.

Definition parse_modulemd_stream (s : ModuleStream) (ret : list modulemd_dict)
    : M (list modulemd_dict) :=
  snippet ← snippet_of (add_module_stream s);
  mret (ret ++ [modulemd_of s snippet]).

Definition parse_modulemd_module (module_index : ModuleIndex) (module : string)
    (ret : list modulemd_dict) : M (list modulemd_dict) :=
  match get_module module_index module with
  | Some modulemd => for_ (get_all_streams modulemd) parse_modulemd_stream ret
  | None => raise AttributeError
  end.

Definition parse_modulemd (module_names : list string)
    (module_index : ModuleIndex) : M (list modulemd_dict) :=
  for_ module_names (parse_modulemd_module module_index) [].

Definition defaults_of (modulemd : Module_) (defaults : Defaults)
    (snippet : Artifact) : defaults_dict :=
  let default_stream := get_default_stream defaults in
  let default_profile := get_default_profiles_for_stream defaults default_stream in
  {| defaults_MODULE := get_module_name modulemd;
     defaults_STREAM := default_stream;
     defaults_PROFILES := json_dumps_list default_profile;
     defaults_DIGEST := sha256 snippet;
     defaults_artifact := snippet |}.

Definition parse_defaults_module (module_index : ModuleIndex) (module : string)
    (ret : list defaults_dict) : M (list defaults_dict) :=
  match get_module module_index module with
  | Some modulemd =>
      match get_defaults modulemd with
      | Some defaults =>
          snippet ← snippet_of (add_defaults defaults);
          mret (ret ++ [defaults_of modulemd defaults snippet])
      | None => mret ret
      end
  | None => raise AttributeError
  end.

Definition parse_defaults (module_index : ModuleIndex) : M (list defaults_dict) :=
  for_ (get_default_streams module_index).*1 (parse_defaults_module module_index) [].

End WithLibraries.

End Decomposer.

(** ** Concrete scenarios *)

Module Scenario.
Import Store Reconciler Effects Materializer Decomposer.

(** Modules M1 = 1 and M2 = 2, packages P1 = 11, P2 = 12, P3 = 13 and an
    advisory 20: M1 owns P1 and P2, M2 owns P2 and P3. *)
Definition db : Database :=
  {| Content_pulp_type :=
       {[ 1%positive := "rpm.modulemd"; 2%positive := "rpm.modulemd";
          11%positive := "rpm.package"; 12%positive := "rpm.package";
          13%positive := "rpm.package"; 20%positive := "rpm.advisory" ]};
     Modulemd_objects :=
       {[ 1%positive := {[ 11%positive; 12%positive ]};
          2%positive := {[ 12%positive; 13%positive ]} ]};
     Package_objects := {[ 11%positive; 12%positive; 13%positive ]} |}.

(** The previous version holds M1 with its packages; the next one starts
    from the same packages with M1 replaced by M2. *)
Definition previous : RepositoryVersion :=
  {| content := {[ 1%positive; 11%positive; 12%positive; 20%positive ]};
     calls := [] |}.

Definition next : RepositoryVersion :=
  {| content := {[ 2%positive; 11%positive; 12%positive; 20%positive ]};
     calls := [] |}.

(** A first sync: M1 and M2 are in the version, no package is yet. *)
Definition first : RepositoryVersion :=
  {| content := {[ 1%positive; 2%positive; 20%positive ]}; calls := [] |}.

(** Stand-ins for the library functions: an encoder that only adds the
    quotes, and a digest that tags the text. *)
Definition quote : string := String (Ascii.ascii_of_nat 34) EmptyString.

Definition encode_basestring (s : string) : string := quote +:+ s +:+ quote.

Definition hexdigest (s : string) : string := "sha256:" +:+ s.

Definition dump_to_string (index : temp_index) : option string :=
  match index with
  | add_module_stream s =>
      Some ("modulemd " +:+ module_name s +:+ ":" +:+ stream_name s)
  | add_defaults defaults =>
      Some ("modulemd-defaults " +:+ get_default_stream defaults)
  end.

(** An operating system that always works, and one whose disk fills up
    after three bytes. *)
Definition good_os : OS :=
  {| mkstemp := λ cwd, Some (fresh_string "tmp" cwd);
     write_file := λ _ _ _, written;
     readable := λ _ _, true |}.

Definition full_disk_os : OS :=
  {| mkstemp := λ _, Some "tmpk3x9";
     write_file := λ _ _ data, write_failed (String.substring 0 3 data);
     readable := λ _ _, true |}.

(** Two clauses that both target ["platform"]. *)
Definition clause (module : string) (streams : list string) : Dependencies :=
  {| get_runtime_modules := [module];
     get_runtime_streams := λ name, if decide (name = module) then streams else [] |}.

Definition gorilla_stable : ModuleStream :=
  {| module_name := "gorilla"; stream_name := "stable"; version := 1%N;
     context := "c0ffee42"; arch := "x86_64";
     get_rpm_artifacts := ["gorilla-1.0.rpm"];
     get_dependencies := [clause "platform" ["f29"]; clause "platform" ["f30"]] |}.

Definition gorilla_unstable : ModuleStream :=
  {| module_name := "gorilla"; stream_name := "unstable"; version := 2%N;
     context := "c0ffee43"; arch := "x86_64";
     get_rpm_artifacts := [];
     get_dependencies := [] |}.

Definition gorilla : Module_ :=
  {| get_module_name := "gorilla";
     get_all_streams := [gorilla_stable; gorilla_unstable];
     get_defaults := None |}.

Definition walrus_defaults : Defaults :=
  {| get_default_stream := "5.21";
     get_default_profiles_for_stream :=
       λ stream, if decide (stream = "5.21") then ["flipper"] else [] |}.

Definition walrus : Module_ :=
  {| get_module_name := "walrus";
     get_all_streams := [];
     get_defaults := Some walrus_defaults |}.

(** ["gorilla"] is listed among the default streams although its module
    carries no defaults object. *)
Definition index : ModuleIndex :=
  {| get_module := λ name,
       if decide (name = "gorilla") then Some gorilla
       else if decide (name = "walrus") then Some walrus
       else None;
     get_default_streams := [("gorilla", "stable"); ("walrus", "5.21")] |}.

End Scenario.

(** * Properties of the reconciler *)

Module ReconcilerFacts.
Import Store Reconciler.

Section WithDatabase.

Variable db : Database.

Lemma elem_of_packages_loop (p : positive) (l : list positive) (acc : gset positive) :
  p ∈ foldl (λ packages module, packages ∪ packages_all db module) acc l
  ↔ p ∈ acc ∨ ∃ m, m ∈ l ∧ p ∈ packages_all db m.
Proof.
  revert acc. induction l as [|x l IH]; intros acc; simpl.
  - split; [auto | intros [?|(m & Hm & _)]; [done | by apply elem_of_nil in Hm]].
  - rewrite IH, elem_of_union. split.
    + intros [[?|?]|(m & Hm & Hp)]; [by left | right; exists x | right; exists m];
        split; auto; [left | by right].
    + intros [?|(m & Hm & Hp)]; [by left; left |].
      apply elem_of_cons in Hm as [->|Hm]; [by left; right | right; eauto].
Qed.

Lemma elem_of_modules_packages (p : positive) (modules : gset positive) :
  p ∈ modules_packages db modules ↔ ∃ m, m ∈ modules ∧ p ∈ packages_all db m.
Proof.
  unfold modules_packages. rewrite elem_of_packages_loop. split.
  - intros [Hp|(m & Hm & Hp)]; [set_solver |].
    exists m. by rewrite <- elem_of_elements.
  - intros (m & Hm & Hp). right. exists m. by rewrite elem_of_elements.
Qed.

Lemma modules_packages_mono (X Y : gset positive) :
  X ⊆ Y → modules_packages db X ⊆ modules_packages db Y.
Proof.
  intros HXY p. rewrite !elem_of_modules_packages.
  intros (m & Hm & Hp). exists m. split; [by apply HXY | done].
Qed.

Lemma modules_packages_empty : modules_packages db ∅ = ∅.
Proof. unfold modules_packages. by rewrite elements_empty. Qed.

Lemma current_modules_content (v v' : RepositoryVersion) :
  content v = content v' → current_modules db v = current_modules db v'.
Proof. unfold current_modules, content_filter. by intros ->. Qed.

Lemma current_modules_mono (v v' : RepositoryVersion) :
  content v ⊆ content v' → current_modules db v ⊆ current_modules db v'.
Proof.
  unfold current_modules, Modulemd_filter_pk_in, content_filter. intros Hs m.
  rewrite !elem_of_filter. set_solver.
Qed.

Lemma removal_pass_content_subseteq previous_version version :
  content (removal_pass db previous_version version) ⊆ content version.
Proof. destruct previous_version; simpl; set_solver. Qed.

Lemma added_modules_subseteq previous_version version :
  added_modules db previous_version version ⊆ current_modules db version.
Proof. destruct previous_version; simpl; set_solver. Qed.

(** The packages of the modules added are, whenever the queryset is run,
    among the packages of the modules the version held on entry. *)
Lemma added_module_packages_current previous_version version :
  added_module_packages db previous_version
      (removal_pass db previous_version version)
    ⊆ current_module_packages db version.
Proof.
  apply modules_packages_mono.
  etrans; [apply added_modules_subseteq |].
  apply current_modules_mono, removal_pass_content_subseteq.
Qed.

Lemma Package_filter_pk_in_subseteq (q : gset positive) :
  Package_filter_pk_in db q ⊆ Package_objects db.
Proof. intros x. unfold Package_filter_pk_in. rewrite elem_of_filter. tauto. Qed.

(** Whatever is not a row of the [Package] table is left where it is. *)
Lemma resolve_module_packages_not_package previous_version version c :
  c ∉ Package_objects db →
  c ∈ content (resolve_module_packages db version previous_version)
  ↔ c ∈ content version.
Proof.
  intros Hc.
  assert (Hq : ∀ q, c ∉ Package_filter_pk_in db q).
  { intros q Hin. by apply Hc, (Package_filter_pk_in_subseteq q). }
  unfold resolve_module_packages. simpl. rewrite elem_of_union.
  destruct previous_version as [previous|]; simpl.
  - rewrite elem_of_difference. split; [| by left].
    intros [[? _]|Hin]; [done | by apply Hq in Hin].
  - split; [| by left]. intros [?|Hin]; [done | by apply Hq in Hin].
Qed.

(** In a consistent database the removal pass leaves the modules of the
    version alone, so the lazy querysets of lines 33 and 43 see the modules
    the version had on entry. *)
Lemma removal_pass_current_modules previous_version version :
  db_consistent db →
  current_modules db (removal_pass db previous_version version)
  = current_modules db version.
Proof.
  intros Hdb. destruct previous_version as [previous|]; [| done].
  unfold current_modules, Modulemd_filter_pk_in, content_filter. simpl.
  apply set_eq. intros m. rewrite !elem_of_filter, elem_of_difference.
  split; [tauto |]. intros [[Hty Hin] Hdom]. repeat split; try done.
  intros Hpkg. apply Package_filter_pk_in_subseteq, Hdb in Hpkg. congruence.
Qed.

(** Line 44 takes nothing away: no [Content] instance equals a [Package]
    instance. *)
Lemma packages_to_add_instances previous_version version :
  packages_to_add db previous_version version
  = instances Package_model (added_module_packages db previous_version version).
Proof.
  unfold packages_to_add, instances. apply set_eq. intros [cls pk].
  rewrite elem_of_difference, !elem_of_map. split; [tauto |].
  intros Hin. split; [done |]. intros (c & Heq & _).
  destruct Hin as (q & Heq' & _). congruence.
Qed.

Lemma primary_keys_instances cls (q : gset positive) :
  primary_keys (instances cls q) = q.
Proof.
  unfold primary_keys, instances. apply set_eq. intros pk.
  rewrite elem_of_map. split.
  - intros ([cls' pk'] & -> & Hin). apply elem_of_map in Hin as (x & Heq & ?).
    by injection Heq as -> ->.
  - intros Hin. exists (cls, pk). split; [done |]. apply elem_of_map. eauto.
Qed.

Lemma primary_keys_packages_to_add previous_version version :
  primary_keys (packages_to_add db previous_version version)
  = added_module_packages db previous_version version.
Proof. by rewrite packages_to_add_instances, primary_keys_instances. Qed.

Lemma elem_of_packages_all (p module : positive) :
  p ∈ packages_all db module
  ↔ p ∈ Package_objects db
    ∧ ∃ linked, Modulemd_objects db !! module = Some linked ∧ p ∈ linked.
Proof.
  unfold packages_all. destruct (Modulemd_objects db !! module) as [linked|].
  - rewrite elem_of_filter. split.
    + intros [? ?]. eauto.
    + intros [? (linked' & Heq & ?)]. by injection Heq as <-.
  - split; [set_solver |]. by intros [_ (linked & ? & _)].
Qed.

Lemma modules_packages_Package (modules : gset positive) :
  modules_packages db modules ⊆ Package_objects db.
Proof.
  intros p. rewrite elem_of_modules_packages. intros (m & _ & Hp).
  by apply elem_of_packages_all in Hp as [? _].
Qed.

(** Filtering the [Package] table by a set of package rows gives the set
    back. *)
Lemma Package_filter_pk_in_id (q : gset positive) :
  q ⊆ Package_objects db → Package_filter_pk_in db q = q.
Proof.
  intros Hq. apply set_eq. intros p. unfold Package_filter_pk_in.
  rewrite elem_of_filter. split; [tauto | auto].
Qed.

Lemma packages_to_remove_Package previous version :
  packages_to_remove db previous version ⊆ Package_objects db.
Proof.
  intros p. unfold packages_to_remove. rewrite elem_of_difference.
  intros [Hp _]. by apply modules_packages_Package in Hp.
Qed.

(** What [add_content] is handed: every package of every added module. *)
Lemma add_content_argument previous_version version :
  Package_filter_pk_in db
    (primary_keys (packages_to_add db previous_version version))
  = added_module_packages db previous_version version.
Proof.
  rewrite primary_keys_packages_to_add.
  apply Package_filter_pk_in_id, modules_packages_Package.
Qed.

End WithDatabase.

End ReconcilerFacts.

Module ReconcilerClaims.
Import Store Reconciler ReconcilerFacts.

(** C1 (conservation).  With a previous version, [packages_to_remove]
    holds exactly the packages of a module that the previous version had and
    the version lacks which are packages of no module of the version; it is
    the packages of the removed modules minus the packages of the modules
    present, and it is the set [remove_content] is called with.  So a
    package of a module present in the version is not in
    [packages_to_remove], is not handed to [remove_content], and stays in
    the version if it was there, even when a removed module owns it too. *)
Theorem packages_to_remove_conservation (db : Database)
    (previous version : RepositoryVersion) (p : positive) :
  (p ∈ packages_to_remove db previous version
   ↔ (∃ m, m ∈ previous_modules db previous
           ∧ (m ∉ current_modules db version)
           ∧ p ∈ packages_all db m)
     ∧ ¬ (∃ m, m ∈ current_modules db version ∧ p ∈ packages_all db m))
  ∧ packages_to_remove db previous version
    = (modules_packages db (previous_modules db previous ∖ current_modules db version)
         ∖ modules_packages db (current_modules db version))
  ∧ calls (resolve_module_packages db version (Some previous))
    = calls version
        ++ [remove_content_call (packages_to_remove db previous version);
            add_content_call
              (added_module_packages db (Some previous)
                 (removal_pass db (Some previous) version))]
  ∧ ∀ m,
      m ∈ current_modules db version →
      p ∈ packages_all db m →
      (p ∉ packages_to_remove db previous version)
      ∧ (p ∉ Package_filter_pk_in db (packages_to_remove db previous version))
      ∧ (p ∈ content version →
         p ∈ content (resolve_module_packages db version (Some previous))).
Proof.
  split.
  { unfold packages_to_remove, removed_module_packages, removed_modules,
      current_module_packages.
    rewrite elem_of_difference, !elem_of_modules_packages. split.
    - intros [(m & Hm & Hp) Hncur]. split; [| done].
      apply elem_of_difference in Hm as [? ?]. eauto.
    - intros [(m & Hprev & Hncur & Hp) Hnone]. split; [| done].
      exists m. split; [| done]. by apply elem_of_difference. }
  split; [reflexivity |]. split.
  { unfold resolve_module_packages. rewrite add_content_argument. simpl.
    rewrite Package_filter_pk_in_id by apply packages_to_remove_Package.
    by rewrite <- app_assoc. }
  intros m Hm Hp.
  assert (Hcur : p ∈ current_module_packages db version).
  { apply elem_of_modules_packages. eauto. }
  assert (Hnot : p ∉ packages_to_remove db previous version).
  { unfold packages_to_remove. rewrite elem_of_difference. tauto. }
  split; [done |].
  assert (Hq : p ∉ Package_filter_pk_in db (packages_to_remove db previous version)).
  { unfold Package_filter_pk_in. rewrite elem_of_filter. tauto. }
  split; [done |].
  intros Hin. unfold resolve_module_packages. simpl.
  apply elem_of_union_l. by apply elem_of_difference.
Qed.

Lemma packages_to_remove_conservation_witness :
  (12%positive
     ∈ packages_to_remove Scenario.db Scenario.previous
         {| content := {[ 11%positive; 12%positive; 20%positive ]};
            calls := [] |})
  ∧ (11%positive ∈ packages_to_remove Scenario.db Scenario.previous Scenario.next)
  ∧ (12%positive ∉ packages_to_remove Scenario.db Scenario.previous Scenario.next)
  ∧ (12%positive
       ∈ content (resolve_module_packages Scenario.db Scenario.next
                    (Some Scenario.previous))).
Proof.
  split.
  { apply (proj1 (packages_to_remove_conservation Scenario.db Scenario.previous
                    {| content := {[ 11%positive; 12%positive; 20%positive ]};
                       calls := [] |} 12%positive)).
    split.
    - exists 1%positive. repeat split; vm_compute; (reflexivity || discriminate).
    - intros (m & Hm & _). apply elem_of_elements in Hm.
      vm_compute in Hm. by apply elem_of_nil in Hm. }
  split.
  - apply (proj1 (packages_to_remove_conservation Scenario.db Scenario.previous
                    Scenario.next 11%positive)).
    split.
    + exists 1%positive. repeat split; vm_compute; (reflexivity || discriminate).
    + intros (m & Hm & Hp). apply elem_of_elements in Hm.
      vm_compute in Hm. apply list_elem_of_singleton in Hm as ->.
      revert Hp. vm_compute. discriminate.
  - assert (Hm : 2%positive ∈ current_modules Scenario.db Scenario.next)
      by (vm_compute; reflexivity).
    assert (Hp : 12%positive ∈ packages_all Scenario.db 2%positive)
      by (vm_compute; reflexivity).
    destruct (proj2 (proj2 (proj2
      (packages_to_remove_conservation Scenario.db Scenario.previous
         Scenario.next 12%positive))) 2%positive Hm Hp) as (Hnot & _ & Hkeep).
    split; [exact Hnot |]. apply Hkeep. vm_compute; reflexivity.
Defined.

(** C2 (first sync).  Without a previous version the added modules are all
    the modules of the version, the removal pass leaves the version as it
    is, the only call the version receives is one [add_content], with every
    package of every module of the version, and nothing the version held is
    missing afterwards. *)
Theorem first_sync_only_adds (db : Database) (version : RepositoryVersion) :
  added_modules db None version = current_modules db version
  ∧ removal_pass db None version = version
  ∧ calls (resolve_module_packages db version None)
    = calls version
        ++ [add_content_call (modules_packages db (current_modules db version))]
  ∧ (∀ q, remove_content_call q
            ∉ drop (length (calls version))
                   (calls (resolve_module_packages db version None)))
  ∧ content version ∖ content (resolve_module_packages db version None) = ∅.
Proof.
  assert (Hcalls : calls (resolve_module_packages db version None)
    = calls version
        ++ [add_content_call (modules_packages db (current_modules db version))]).
  { unfold resolve_module_packages. by rewrite add_content_argument. }
  split; [reflexivity |]. split; [reflexivity |]. split; [exact Hcalls |].
  split.
  - intros q. rewrite Hcalls, drop_app_length. intros Hin.
    apply list_elem_of_singleton in Hin. discriminate.
  - unfold resolve_module_packages; simpl. set_solver.
Qed.

(** C3 (no re-add), which the code does not meet.  The subtraction of line
    44 takes nothing away, a [Content] instance never being equal to a
    [Package] instance.  In scenario A package 12 is in the version when the
    line runs, yet it is in [packages_to_add], and [add_content] is called
    with it. *)
Theorem packages_to_add_keeps_present :
  12%positive
    ∈ current_packages Scenario.db
        (removal_pass Scenario.db (Some Scenario.previous) Scenario.next)
  ∧ (Package_model, 12%positive)
      ∈ packages_to_add Scenario.db (Some Scenario.previous)
          (removal_pass Scenario.db (Some Scenario.previous) Scenario.next)
  ∧ calls (resolve_module_packages Scenario.db Scenario.next
             (Some Scenario.previous))
    = [remove_content_call {[ 11%positive ]};
       add_content_call {[ 12%positive; 13%positive ]}].
Proof.
  split; [vm_compute; reflexivity |]. split; [vm_compute; reflexivity |].
  by vm_compute.
Qed.

(** C6 (idempotence).  When the previous version holds exactly the modules
    of the version, [packages_to_remove] and [packages_to_add] are empty,
    both calls receive an empty queryset, and the content of the version is
    unchanged. *)
Theorem same_modules_nothing_to_do (db : Database)
    (previous version : RepositoryVersion) :
  previous_modules db previous = current_modules db version →
  let version' := removal_pass db (Some previous) version in
  packages_to_remove db previous version = ∅
  ∧ packages_to_add db (Some previous) version' = ∅
  ∧ calls (resolve_module_packages db version (Some previous))
    = calls version ++ [remove_content_call ∅; add_content_call ∅]
  ∧ content (resolve_module_packages db version (Some previous))
    = content version.
Proof.
  intros Hsame version'.
  assert (Hrem : packages_to_remove db previous version = ∅).
  { unfold packages_to_remove, removed_module_packages, removed_modules.
    rewrite Hsame, difference_diag_L, modules_packages_empty. set_solver. }
  assert (Hempty : Package_filter_pk_in db ∅ = ∅).
  { apply set_eq. intros x. unfold Package_filter_pk_in.
    rewrite elem_of_filter. set_solver. }
  assert (Hcontent : content version' = content version).
  { subst version'. simpl. rewrite Hrem, Hempty. set_solver. }
  assert (Hnone : added_module_packages db (Some previous) version' = ∅).
  { unfold added_module_packages. simpl.
    rewrite (current_modules_content db version' version Hcontent).
    by rewrite Hsame, difference_diag_L, modules_packages_empty. }
  assert (Hadd : packages_to_add db (Some previous) version' = ∅).
  { rewrite packages_to_add_instances, Hnone. apply set_map_empty. }
  split; [exact Hrem |]. split; [exact Hadd |].
  unfold resolve_module_packages. fold version'.
  rewrite add_content_argument, Hnone.
  split.
  - subst version'. simpl. rewrite Hrem, Hempty.
    by rewrite <- app_assoc.
  - unfold add_content. cbn [content]. rewrite Hcontent. set_solver.
Qed.

Lemma same_modules_nothing_to_do_witness :
  content (resolve_module_packages Scenario.db Scenario.previous
             (Some Scenario.previous))
  = content Scenario.previous.
Proof.
  refine (proj2 (proj2 (proj2
    (same_modules_nothing_to_do Scenario.db Scenario.previous
       Scenario.previous _)))).
  reflexivity.
Defined.

(** C10 (frame).  In a consistent database, content whose type is not
    [rpm.package] is in the version after the reconciliation exactly when it
    was before, and both mutation calls receive rows of the [Package] table
    only. *)
Theorem resolve_module_packages_frame (db : Database)
    (version : RepositoryVersion)
    (previous_version : option RepositoryVersion) (c : positive) :
  db_consistent db →
  Content_pulp_type db !! c ≠ Some "rpm.package" →
  (c ∈ content (resolve_module_packages db version previous_version)
     ↔ c ∈ content version)
  ∧ ∀ q,
      (remove_content_call q
         ∈ drop (length (calls version))
             (calls (resolve_module_packages db version previous_version))
       ∨ add_content_call q
         ∈ drop (length (calls version))
             (calls (resolve_module_packages db version previous_version))) →
      q ⊆ Package_objects db ∧ c ∉ q.
Proof.
  intros Hdb Hc.
  assert (Hpkg : c ∉ Package_objects db).
  { intros Hin. by apply Hc, Hdb. }
  split; [by apply resolve_module_packages_not_package |].
  intros q. unfold resolve_module_packages.
  destruct previous_version as [previous|]; simpl.
  - rewrite <- app_assoc, drop_app_length. simpl.
    rewrite !elem_of_cons, !elem_of_nil.
    intros [[Heq|[Heq|[]]]|[Heq|[Heq|[]]]]; try discriminate;
      injection Heq as ->;
      (split; [apply Package_filter_pk_in_subseteq |]);
      intros Hin; by apply Hpkg, (Package_filter_pk_in_subseteq _ _ _ Hin).
  - rewrite drop_app_length, !elem_of_cons, !elem_of_nil.
    intros [[Heq|[]]|[Heq|[]]]; try discriminate.
    injection Heq as ->. split; [apply Package_filter_pk_in_subseteq |].
    intros Hin. by apply Hpkg, (Package_filter_pk_in_subseteq _ _ _ Hin).
Qed.

Lemma resolve_module_packages_frame_witness :
  20%positive
    ∈ content (resolve_module_packages Scenario.db Scenario.next
                 (Some Scenario.previous)).
Proof.
  assert (Hdb : db_consistent Scenario.db).
  { intros p Hp. apply elem_of_elements in Hp. revert p Hp.
    apply Forall_forall. vm_compute. repeat constructor. }
  assert (Hc : Content_pulp_type Scenario.db !! 20%positive ≠ Some "rpm.package")
    by (vm_compute; discriminate).
  apply (proj1 (resolve_module_packages_frame Scenario.db Scenario.next
                  (Some Scenario.previous) 20%positive Hdb Hc)).
  vm_compute. reflexivity.
Defined.

(** End-to-end scenario A of the specification, run on the model. *)
Example scenario_A :
  packages_to_remove Scenario.db Scenario.previous Scenario.next = {[ 11%positive ]}
  ∧ primary_keys
      (packages_to_add Scenario.db (Some Scenario.previous)
         (removal_pass Scenario.db (Some Scenario.previous) Scenario.next))
    = {[ 12%positive; 13%positive ]}
  ∧ content (resolve_module_packages Scenario.db Scenario.next
               (Some Scenario.previous))
    = {[ 2%positive; 12%positive; 13%positive; 20%positive ]}.
Proof. repeat split; apply bool_decide_unpack; vm_compute; exact I. Qed.

End ReconcilerClaims.

(** * Properties of the snippet materializer *)

Module MaterializerFacts.
Import Effects Materializer.

Lemma bind_inr {A B : Type} (m : M A) (f : A → M B) cwd y cwd' :
  (x ← m; f x) cwd = (inr y, cwd') →
  ∃ x cwd1, m cwd = (inr x, cwd1) ∧ f x cwd1 = (inr y, cwd').
Proof.
  unfold mbind, M_bind. destruct (m cwd) as [[e|x] cwd1]; [discriminate |].
  intros Hf. by exists x, cwd1.
Qed.

Lemma bind_inr_intro {A B : Type} (m : M A) (f : A → M B) cwd x cwd1 :
  m cwd = (inr x, cwd1) → (x ← m; f x) cwd = f x cwd1.
Proof. unfold mbind, M_bind. by intros ->. Qed.

Section WithEnvironment.

Variable hexdigest : string → string.
Variable os : OS.

(** A successful run: the file was created under a fresh name, holds the
    text, and the artifact carries the digest of the text. *)
Lemma create_snippet_inr s cwd a cwd' :
  _create_snippet hexdigest os s cwd = (inr a, cwd') →
  ∃ name, mkstemp os cwd = Some name ∧ cwd !! name = None
    ∧ cwd' = <[name := s]> (<[name := EmptyString]> cwd)
    ∧ a = {| file := name; size := String.length s; sha256 := hexdigest s |}.
Proof.
  unfold _create_snippet. intros H.
  apply bind_inr in H as (name & cwd1 & Htmp & H).
  apply bind_inr in H as ([] & cwd2 & Hw & H).
  unfold NamedTemporaryFile in Htmp.
  destruct (mkstemp os cwd) as [name'|] eqn:Hmk; [| discriminate].
  destruct (cwd !! name') eqn:Hfresh; [discriminate |].
  injection Htmp as -> <-.
  unfold open_write in Hw.
  destruct (write_file os _ name s); [| discriminate].
  injection Hw as <-.
  unfold init_and_validate in H. rewrite lookup_insert_eq in H.
  destruct (readable os _ name); [| discriminate].
  injection H as <- <-. by exists name.
Qed.

Lemma create_snippet_reliable s cwd :
  reliable os → ∃ a cwd', _create_snippet hexdigest os s cwd = (inr a, cwd').
Proof.
  intros (Hmk & Hw & Hr). destruct (Hmk cwd) as (name & Hname & Hfresh).
  unfold _create_snippet, mbind, M_bind, NamedTemporaryFile, open_write,
    init_and_validate.
  rewrite Hname, Hfresh, Hw, lookup_insert_eq, Hr. eauto.
Qed.

End WithEnvironment.

End MaterializerFacts.

Module MaterializerClaims.
Import Effects Materializer MaterializerFacts.

(** C4, as amended.  Once the temporary file is acquired, no exit path of
    [_create_snippet] removes it: whether the call returns or raises, the
    file is in the working directory afterwards and every other file is as
    it was; when the call returns, the file holds exactly the snippet text
    and is the file of the artifact. *)
Theorem create_snippet_keeps_temporary_file (hexdigest : string → string)
    (os : OS) (snippet_string : string) (cwd : gmap string string)
    (name : string) :
  mkstemp os cwd = Some name →
  cwd !! name = None →
  ∃ outcome cwd',
    _create_snippet hexdigest os snippet_string cwd = (outcome, cwd')
    ∧ is_Some (cwd' !! name)
    ∧ (∀ other, other ≠ name → cwd' !! other = cwd !! other)
    ∧ (∀ a, outcome = inr a →
         file a = name ∧ cwd' !! name = Some snippet_string).
Proof.
  intros Hmk Hfresh.
  unfold _create_snippet, mbind, M_bind, NamedTemporaryFile, open_write,
    init_and_validate.
  rewrite Hmk, Hfresh.
  destruct (write_file os _ name snippet_string) as [|partial].
  - rewrite lookup_insert_eq.
    destruct (readable os _ name); eexists _, _; (split; [reflexivity |]);
      rewrite lookup_insert_eq; (split; [eauto |]); split.
    + intros other Hne. by rewrite !lookup_insert_ne.
    + intros a Ha. by injection Ha as <-.
    + intros other Hne. by rewrite !lookup_insert_ne.
    + intros a Ha. discriminate.
  - eexists _, _. split; [reflexivity |]. rewrite lookup_insert_eq.
    split; [eauto |]. split.
    + intros other Hne. by rewrite !lookup_insert_ne.
    + intros a Ha. discriminate.
Qed.

Lemma create_snippet_keeps_temporary_file_witness :
  ∃ outcome cwd',
    _create_snippet Scenario.hexdigest Scenario.full_disk_os
      "document: modulemd" ∅ = (outcome, cwd')
    ∧ is_Some (cwd' !! "tmpk3x9")
    ∧ (∀ other, other ≠ "tmpk3x9" → cwd' !! other = (∅ : gmap string string) !! other)
    ∧ (∀ a, outcome = inr a →
         file a = "tmpk3x9" ∧ cwd' !! "tmpk3x9" = Some "document: modulemd").
Proof.
  apply (create_snippet_keeps_temporary_file Scenario.hexdigest
           Scenario.full_disk_os "document: modulemd" ∅ "tmpk3x9");
    reflexivity.
Defined.

(** C4, as stated, fails: when the write fails the call raises and the
    temporary file stays in the working directory with what was written. *)
Lemma create_snippet_failure_leaves_file :
  _create_snippet Scenario.hexdigest Scenario.full_disk_os
    "document: modulemd" ∅
  = (inl OSError, {[ "tmpk3x9" := "doc" ]})
  ∧ ({[ "tmpk3x9" := "doc" ]} : gmap string string) ≠ ∅.
Proof.
  split; [by vm_compute |].
  intros Heq. apply (f_equal (λ m : gmap string string, m !! "tmpk3x9")) in Heq.
  rewrite lookup_singleton_eq, lookup_empty in Heq. discriminate.
Qed.

(** C7 (snippet determinism).  Two runs of [_create_snippet] on the same
    text that both return, in whatever directory and under whatever
    operating system behaviour, return artifacts with the same digest, the
    digest of the text. *)
Theorem create_snippet_same_digest (hexdigest : string → string)
    (os1 os2 : OS) (snippet_string : string)
    (cwd1 cwd2 cwd1' cwd2' : gmap string string) (a1 a2 : Artifact) :
  _create_snippet hexdigest os1 snippet_string cwd1 = (inr a1, cwd1') →
  _create_snippet hexdigest os2 snippet_string cwd2 = (inr a2, cwd2') →
  sha256 a1 = sha256 a2 ∧ sha256 a1 = hexdigest snippet_string.
Proof.
  intros H1 H2.
  apply create_snippet_inr in H1 as (n1 & _ & _ & _ & ->).
  apply create_snippet_inr in H2 as (n2 & _ & _ & _ & ->).
  done.
Qed.

Lemma create_snippet_same_digest_witness :
  ∃ a1 a2 cwd1 cwd2,
    _create_snippet Scenario.hexdigest Scenario.good_os "document: modulemd" ∅
      = (inr a1, cwd1)
    ∧ _create_snippet Scenario.hexdigest Scenario.good_os "document: modulemd" cwd1
      = (inr a2, cwd2)
    ∧ file a1 ≠ file a2
    ∧ sha256 a1 = sha256 a2.
Proof.
  eexists _, _, _, _.
  assert (H1 : _create_snippet Scenario.hexdigest Scenario.good_os
                 "document: modulemd" ∅
               = (inr {| file := "tmp"; size := 18;
                         sha256 := "sha256:document: modulemd" |},
                  {[ "tmp" := "document: modulemd" ]}))
    by (by vm_compute).
  assert (H2 : _create_snippet Scenario.hexdigest Scenario.good_os
                 "document: modulemd" {[ "tmp" := "document: modulemd" ]}
               = (inr {| file := "tmp0"; size := 18;
                         sha256 := "sha256:document: modulemd" |},
                  {[ "tmp" := "document: modulemd";
                     "tmp0" := "document: modulemd" ]}))
    by (by vm_compute).
  split; [exact H1 |]. split; [exact H2 |]. split; [discriminate |].
  exact (proj1 (create_snippet_same_digest _ _ _ _ _ _ _ _ _ _ H1 H2)).
Defined.

End MaterializerClaims.

(** * Properties of the decomposer *)

Module DecomposerFacts.
Import Effects Materializer MaterializerFacts Decomposer.

Section Dict.

Context {V : Type}.
Implicit Types (d : list (string * V)) (k : string) (v : V).

Lemma dict_get_set_eq d k v : dict_get (dict_set d k v) k = Some v.
Proof.
  induction d as [|[k' v'] d IH]; simpl.
  - by rewrite decide_True.
  - destruct (decide (k' = k)) as [->|Hne]; simpl.
    + by rewrite decide_True.
    + by rewrite decide_False.
Qed.

Lemma dict_get_set_ne d k k' v :
  k ≠ k' → dict_get (dict_set d k v) k' = dict_get d k'.
Proof.
  intros Hne. induction d as [|[k0 v0] d IH]; simpl.
  - by rewrite decide_False.
  - destruct (decide (k0 = k)) as [->|Hne0]; simpl.
    + by rewrite !decide_False.
    + destruct (decide (k0 = k')); [done | exact IH].
Qed.

End Dict.

(** One clause: the names it lists are set to its streams, the other
    entries are kept. *)
Lemma add_clause_listed dependencies dep name :
  name ∈ get_runtime_modules dep →
  dict_get (add_clause dependencies dep) name
  = Some (get_runtime_streams dep name).
Proof.
  unfold add_clause. generalize (get_runtime_modules dep) as l.
  intros l. revert dependencies.
  induction l as [|x l IH] using rev_ind; intros dependencies Hin.
  - by apply elem_of_nil in Hin.
  - rewrite foldl_snoc. destruct (decide (x = name)) as [->|Hne].
    + apply dict_get_set_eq.
    + rewrite dict_get_set_ne by done. apply IH.
      apply elem_of_app in Hin as [Hin|Hin]; [done |].
      apply list_elem_of_singleton in Hin. congruence.
Qed.

Lemma add_clause_not_listed dependencies dep name :
  name ∉ get_runtime_modules dep →
  dict_get (add_clause dependencies dep) name = dict_get dependencies name.
Proof.
  unfold add_clause. generalize (get_runtime_modules dep) as l.
  intros l. revert dependencies.
  induction l as [|x l IH]; intros dependencies Hnin; simpl; [done |].
  rewrite not_elem_of_cons in Hnin. destruct Hnin as [Hne Hnin].
  rewrite IH by done. by apply dict_get_set_ne.
Qed.


(** An iteration that returns its accumulator and changes nothing can be
    left out of the loop. *)
Lemma for_skip {A S : Type} (body : A → S → M S) (x : A) (l : list A)
    `{!EqDecision A} (acc : S) cwd :
  (∀ acc cwd, body x acc cwd = (inr acc, cwd)) →
  for_ l body acc cwd = for_ (filter (λ y, y ≠ x) l) body acc cwd.
Proof.
  intros Hx. revert acc cwd. induction l as [|y l IH]; intros acc cwd; [done |].
  rewrite filter_cons. destruct (decide (y ≠ x)) as [Hne|Heq]; simpl.
  - unfold mbind, M_bind. destruct (body y acc cwd) as [[e|acc'] cwd1]; [done |].
    apply IH.
  - apply dec_stable in Heq as ->.
    rewrite (bind_inr_intro _ _ _ _ _ (Hx acc cwd)). apply IH.
Qed.

Section WithLibraries.

Variable encode_basestring : string → string.
Variable hexdigest : string → string.
Variable os : OS.
Variable dump_to_string : temp_index → option string.

Lemma json_dumps_list_nil : json_dumps_list encode_basestring [] = "[]".
Proof. reflexivity. Qed.

Lemma snippet_of_reliable index cwd :
  reliable os → is_Some (dump_to_string index) →
  ∃ a cwd', snippet_of hexdigest os dump_to_string index cwd = (inr a, cwd').
Proof.
  intros Hos [text Htext]. unfold snippet_of. rewrite Htext.
  by apply create_snippet_reliable.
Qed.

(** The inner loop of [parse_modulemd] appends one dictionary per stream,
    in order. *)
Lemma parse_streams_inr streams ret cwd ret' cwd' :
  for_ streams (parse_modulemd_stream encode_basestring hexdigest os dump_to_string)
       ret cwd = (inr ret', cwd') →
  ∃ recs, ret' = ret ++ recs
    ∧ Forall2 (λ s r, ∃ a, r = modulemd_of encode_basestring s a) streams recs.
Proof.
  revert ret cwd. induction streams as [|s streams IH]; intros ret cwd H; simpl in H.
  - injection H as <- <-. exists []. by rewrite app_nil_r.
  - apply bind_inr in H as (ret1 & cwd1 & Hs & H).
    unfold parse_modulemd_stream in Hs.
    apply bind_inr in Hs as (a & cwd2 & _ & Hs). injection Hs as <- <-.
    apply IH in H as (recs & -> & Hrecs).
    exists (modulemd_of encode_basestring s a :: recs).
    rewrite <- app_assoc. split; [done |]. constructor; eauto.
Qed.

Lemma parse_modules_inr module_index names ret cwd ret' cwd' :
  for_ names
       (parse_modulemd_module encode_basestring hexdigest os dump_to_string
          module_index)
       ret cwd = (inr ret', cwd') →
  ∃ modules recs,
    Forall2 (λ name modulemd, get_module module_index name = Some modulemd)
      names modules
    ∧ ret' = ret ++ recs
    ∧ Forall2 (λ s r, ∃ a, r = modulemd_of encode_basestring s a)
        (concat (get_all_streams <$> modules)) recs.
Proof.
  revert ret cwd. induction names as [|name names IH]; intros ret cwd H; simpl in H.
  - injection H as <- <-. exists [], []. by rewrite app_nil_r.
  - apply bind_inr in H as (ret1 & cwd1 & Hm & H).
    unfold parse_modulemd_module in Hm.
    destruct (get_module module_index name) as [modulemd|] eqn:Hget;
      [| discriminate].
    apply parse_streams_inr in Hm as (recs1 & -> & Hrecs1).
    apply IH in H as (modules & recs & Hmods & -> & Hrecs).
    exists (modulemd :: modules), (recs1 ++ recs).
    split; [by constructor |]. split; [by rewrite app_assoc |].
    simpl. by apply Forall2_app.
Qed.

Lemma parse_streams_reliable streams ret cwd :
  reliable os → (∀ index, is_Some (dump_to_string index)) →
  ∃ ret' cwd',
    for_ streams (parse_modulemd_stream encode_basestring hexdigest os dump_to_string)
         ret cwd = (inr ret', cwd').
Proof.
  intros Hos Hdump. revert ret cwd.
  induction streams as [|s streams IH]; intros ret cwd; simpl; [by eexists _, _ |].
  destruct (snippet_of_reliable (add_module_stream s) cwd Hos (Hdump _))
    as (a & cwd1 & Ha).
  unfold parse_modulemd_stream.
  erewrite bind_inr_intro; [| erewrite bind_inr_intro; [| exact Ha]; reflexivity].
  apply IH.
Qed.

Lemma parse_modules_reliable module_index names ret cwd :
  reliable os → (∀ index, is_Some (dump_to_string index)) →
  (∀ name, name ∈ names → is_Some (get_module module_index name)) →
  ∃ ret' cwd',
    for_ names
         (parse_modulemd_module encode_basestring hexdigest os dump_to_string
            module_index)
         ret cwd = (inr ret', cwd').
Proof.
  intros Hos Hdump. revert ret cwd.
  induction names as [|name names IH]; intros ret cwd Hnames; simpl;
    [by eexists _, _ |].
  destruct (Hnames name) as [modulemd Hget]; [by left |].
  destruct (parse_streams_reliable (get_all_streams modulemd) ret cwd Hos Hdump)
    as (ret1 & cwd1 & H1).
  erewrite bind_inr_intro;
    [| unfold parse_modulemd_module; rewrite Hget; exact H1].
  apply IH. intros name' Hin. apply Hnames. by right.
Qed.

(** The loop of [parse_defaults] appends one dictionary per name whose
    module carries a defaults object, in order, and nothing for the others. *)
Lemma parse_defaults_loop_inr module_index names ret cwd ret' cwd' :
  for_ names
       (parse_defaults_module encode_basestring hexdigest os dump_to_string
          module_index)
       ret cwd = (inr ret', cwd') →
  ∃ recs, ret' = ret ++ recs
    ∧ Forall2 (λ md r, ∃ a, r = defaults_of encode_basestring md.1 md.2 a)
        (omap (λ name, modulemd ← get_module module_index name;
                       defaults ← get_defaults modulemd;
                       Some (modulemd, defaults)) names)
        recs.
Proof.
  revert ret cwd. induction names as [|name names IH]; intros ret cwd H; simpl in H.
  - injection H as <- <-. exists []. by rewrite app_nil_r.
  - apply bind_inr in H as (ret1 & cwd1 & Hm & H).
    unfold parse_defaults_module in Hm. simpl.
    destruct (get_module module_index name) as [modulemd|] eqn:Hget;
      [| discriminate].
    simpl. destruct (get_defaults modulemd) as [defaults|] eqn:Hdef; simpl.
    + apply bind_inr in Hm as (a & cwd2 & _ & Hm). injection Hm as <- <-.
      apply IH in H as (recs & -> & Hrecs).
      exists (defaults_of encode_basestring modulemd defaults a :: recs).
      rewrite <- app_assoc. split; [done |]. constructor; eauto.
    + injection Hm as <- <-. by apply IH in H.
Qed.

End WithLibraries.

End DecomposerFacts.

Module DecomposerClaims.
Import Effects Materializer MaterializerFacts Decomposer DecomposerFacts.



(** C8 (empty-artifact streams).  Whenever [parse_modulemd] returns, every
    requested name resolved to a module and the list returned pairs off, in
    order, with the streams of those modules: each stream has its
    dictionary, whose [ARTIFACTS] is the JSON array of the stream's RPM
    artifacts, the string [[]] when there are none.  On a reliable
    operating system, with a serializer that does not fail and names the
    index knows, [parse_modulemd] does return. *)
Theorem parse_modulemd_every_stream (encode_basestring hexdigest : string → string)
    (os : OS) (dump_to_string : temp_index → option string)
    (module_names : list string) (module_index : ModuleIndex)
    (cwd : gmap string string) :
  (∀ ret cwd',
     parse_modulemd encode_basestring hexdigest os dump_to_string
       module_names module_index cwd = (inr ret, cwd') →
     ∃ modules,
       Forall2 (λ name modulemd, get_module module_index name = Some modulemd)
         module_names modules
       ∧ Forall2
           (λ s r,
              NAME r = module_name s ∧ STREAM r = stream_name s
              ∧ VERSION r = version s ∧ CONTEXT r = context s
              ∧ ARCH r = arch s
              ∧ ARTIFACTS r = json_dumps_list encode_basestring (get_rpm_artifacts s)
              ∧ (get_rpm_artifacts s = [] → ARTIFACTS r = "[]"))
           (concat (get_all_streams <$> modules)) ret)
  ∧ (reliable os →
     (∀ index, is_Some (dump_to_string index)) →
     (∀ name, name ∈ module_names → is_Some (get_module module_index name)) →
     ∃ ret cwd',
       parse_modulemd encode_basestring hexdigest os dump_to_string
         module_names module_index cwd = (inr ret, cwd')).
Proof.
  split.
  - intros ret cwd' H. unfold parse_modulemd in H.
    apply parse_modules_inr in H as (modules & recs & Hmods & -> & Hrecs).
    exists modules. split; [done |]. simpl.
    eapply Forall2_impl; [exact Hrecs |].
    intros s r [a ->]. simpl. repeat (split; [reflexivity |]).
    by intros ->.
  - intros Hos Hdump Hnames. by apply parse_modules_reliable.
Qed.

Lemma parse_modulemd_every_stream_witness :
  ∃ ret cwd',
    parse_modulemd Scenario.encode_basestring Scenario.hexdigest
      Scenario.good_os Scenario.dump_to_string ["gorilla"] Scenario.index ∅
    = (inr ret, cwd')
    ∧ STREAM <$> ret = ["stable"; "unstable"]
    ∧ ARTIFACTS <$> ret !! 1 = Some "[]".
Proof.
  assert (Hos : reliable Scenario.good_os).
  { split; [| by split].
    intros cwd. eexists. split; [reflexivity |]. apply fresh_string_fresh. }
  assert (Hdump : ∀ index, is_Some (Scenario.dump_to_string index)).
  { intros [s|defaults]; simpl; eauto. }
  assert (Hnames : ∀ name, name ∈ ["gorilla"] →
                   is_Some (get_module Scenario.index name)).
  { intros name Hin. apply list_elem_of_singleton in Hin as ->. simpl. eauto. }
  destruct (parse_modulemd_every_stream Scenario.encode_basestring
              Scenario.hexdigest Scenario.good_os Scenario.dump_to_string
              ["gorilla"] Scenario.index ∅) as [Hall Hreturns].
  destruct (Hreturns Hos Hdump Hnames) as (ret & cwd' & Hrun).
  exists ret, cwd'. split; [exact Hrun |].
  destruct (Hall ret cwd' Hrun) as (modules & Hmods & Hrecs).
  apply Forall2_cons_inv_l in Hmods as (modulemd & modules' & Hget & Hnil & ->).
  apply Forall2_nil_inv_l in Hnil as ->.
  simpl in Hget. injection Hget as <-. simpl in Hrecs.
  apply Forall2_cons_inv_l in Hrecs as (r1 & ret1 & H1 & Hrecs & ->).
  apply Forall2_cons_inv_l in Hrecs as (r2 & ret2 & H2 & Hrecs & ->).
  apply Forall2_nil_inv_l in Hrecs as ->.
  destruct H1 as (_ & Hs1 & _). destruct H2 as (_ & Hs2 & _ & _ & _ & _ & Hempty).
  simpl. rewrite Hs1, Hs2, Hempty by reflexivity. done.
Defined.

(** C9 (defaults skip).  For a name among the default-stream keys whose
    module has no defaults object, the iteration of [parse_defaults]
    returns [ret] as it received it: nothing is appended, nothing is raised
    and no file is touched, so [parse_defaults] behaves as if the name were
    not among the keys.  Whenever [parse_defaults] returns, the list
    returned pairs off, in order, with the keys whose module carries a
    defaults object, and each dictionary comes from a key other than that
    name. *)
Theorem parse_defaults_skips_absent (encode_basestring hexdigest : string → string)
    (os : OS) (dump_to_string : temp_index → option string)
    (module_index : ModuleIndex) (module : string) (modulemd : Module_) :
  module ∈ (get_default_streams module_index).*1 →
  get_module module_index module = Some modulemd →
  get_defaults modulemd = None →
  (∀ ret cwd,
     parse_defaults_module encode_basestring hexdigest os dump_to_string
       module_index module ret cwd = (inr ret, cwd))
  ∧ (∀ cwd,
       parse_defaults encode_basestring hexdigest os dump_to_string
         module_index cwd
       = for_ (filter (λ name, name ≠ module) (get_default_streams module_index).*1)
              (parse_defaults_module encode_basestring hexdigest os
                 dump_to_string module_index)
              [] cwd)
  ∧ (∀ ret cwd cwd',
       parse_defaults encode_basestring hexdigest os dump_to_string
         module_index cwd = (inr ret, cwd') →
       Forall2 (λ md r, ∃ a, r = defaults_of encode_basestring md.1 md.2 a)
         (omap (λ name, modulemd ← get_module module_index name;
                        defaults ← get_defaults modulemd;
                        Some (modulemd, defaults))
               (get_default_streams module_index).*1)
         ret
       ∧ ∀ r, r ∈ ret →
           ∃ name' modulemd' defaults a,
             name' ∈ (get_default_streams module_index).*1
             ∧ name' ≠ module
             ∧ get_module module_index name' = Some modulemd'
             ∧ get_defaults modulemd' = Some defaults
             ∧ r = defaults_of encode_basestring modulemd' defaults a).
Proof.
  intros Hkey Hget Hnone.
  assert (Hstep : ∀ ret cwd,
    parse_defaults_module encode_basestring hexdigest os dump_to_string
      module_index module ret cwd = (inr ret, cwd)).
  { intros ret cwd. unfold parse_defaults_module. by rewrite Hget, Hnone. }
  split; [exact Hstep |]. split.
  - intros cwd. unfold parse_defaults.
    by apply for_skip.
  - intros ret cwd cwd' H. unfold parse_defaults in H.
    apply parse_defaults_loop_inr in H as (recs & -> & Hrecs). simpl.
    split; [exact Hrecs |].
    intros r Hr. apply list_elem_of_lookup in Hr as [i Hi].
    destruct (Forall2_lookup_r _ _ _ _ _ Hrecs Hi) as ([modulemd' defaults] & Hmd & a & ->).
    apply list_elem_of_lookup_2, list_elem_of_omap in Hmd as (name' & Hin & Hsome).
    destruct (get_module module_index name') as [m|] eqn:Hget'; [| discriminate].
    simpl in Hsome.
    destruct (get_defaults m) as [d|] eqn:Hdef; [| discriminate].
    injection Hsome as -> ->.
    exists name', modulemd', defaults, a. repeat (split; [done |]).
    split; [| done]. intros ->. congruence.
Qed.

Lemma parse_defaults_skips_absent_witness :
  parse_defaults_module Scenario.encode_basestring Scenario.hexdigest
    Scenario.full_disk_os Scenario.dump_to_string Scenario.index "gorilla" [] ∅
  = (inr [], ∅)
  ∧ match (parse_defaults Scenario.encode_basestring Scenario.hexdigest
             Scenario.good_os Scenario.dump_to_string Scenario.index ∅).1 with
    | inr ret => defaults_MODULE <$> ret = ["walrus"]
    | inl _ => False
    end.
Proof.
  split; [| by vm_compute].
  refine (proj1 (parse_defaults_skips_absent Scenario.encode_basestring
    Scenario.hexdigest Scenario.full_disk_os Scenario.dump_to_string
    Scenario.index "gorilla" Scenario.gorilla _ _ _) [] ∅).
  - simpl. by left.
  - reflexivity.
  - reflexivity.
Defined.

End DecomposerClaims.

(** * Further properties of the reconciler *)

Module ReconcilerMoreFacts.
Import Store Reconciler ReconcilerFacts.

Section WithDatabase.

Variable db : Database.

Lemma added_modules_mono previous_version (v v' : RepositoryVersion) :
  content v ⊆ content v' →
  added_modules db previous_version v ⊆ added_modules db previous_version v'.
Proof.
  intros Hs. pose proof (current_modules_mono db v v' Hs).
  destruct previous_version; simpl; set_solver.
Qed.

Lemma current_packages_content version :
  current_packages db version ⊆ content version.
Proof.
  intros p. unfold current_packages, content_filter. rewrite elem_of_filter. tauto.
Qed.

(** Nothing is both removed and added. *)
Lemma packages_to_remove_add_disjoint previous version p :
  p ∈ packages_to_remove db previous version →
  p ∉ added_module_packages db (Some previous)
        (removal_pass db (Some previous) version).
Proof.
  unfold packages_to_remove.
  rewrite elem_of_difference. intros [_ Hncur] Hadd.
  by apply Hncur, (added_module_packages_current db (Some previous) version).
Qed.

(** The content after the call, with the querysets of lines 42-44 still
    expressed on the version the removal pass produced. *)
Lemma resolve_module_packages_content previous_version version :
  content (resolve_module_packages db version previous_version)
  = content (removal_pass db previous_version version)
      ∪ added_module_packages db previous_version
          (removal_pass db previous_version version).
Proof. unfold resolve_module_packages. by rewrite add_content_argument. Qed.

Lemma removal_pass_content previous version :
  content (removal_pass db (Some previous) version)
  = content version ∖ packages_to_remove db previous version.
Proof.
  simpl. by rewrite Package_filter_pk_in_id by apply packages_to_remove_Package.
Qed.

Lemma added_modules_stable previous_version version :
  db_consistent db →
  added_modules db previous_version (removal_pass db previous_version version)
  = added_modules db previous_version version.
Proof.
  intros Hdb. unfold added_modules.
  by rewrite (removal_pass_current_modules db previous_version version Hdb).
Qed.

(** In a consistent database the call leaves the modules of the version
    alone. *)
Lemma resolve_module_packages_current_modules previous_version version :
  db_consistent db →
  current_modules db (resolve_module_packages db version previous_version)
  = current_modules db version.
Proof.
  intros Hdb. unfold current_modules, Modulemd_filter_pk_in, content_filter.
  apply set_eq. intros m. rewrite !elem_of_filter.
  split; intros [[Hty Hin] Hdom]; (split; [split; [done |] | done]).
  - apply (resolve_module_packages_not_package db previous_version version m);
      [| done].
    intros Hpkg. apply Hdb in Hpkg. congruence.
  - apply (resolve_module_packages_not_package db previous_version version m);
      [| done].
    intros Hpkg. apply Hdb in Hpkg. congruence.
Qed.

Lemma packages_to_remove_modules previous (v v' : RepositoryVersion) :
  current_modules db v = current_modules db v' →
  packages_to_remove db previous v = packages_to_remove db previous v'.
Proof.
  unfold packages_to_remove, removed_module_packages, removed_modules,
    current_module_packages. by intros ->.
Qed.

Lemma added_modules_modules previous_version (v v' : RepositoryVersion) :
  current_modules db v = current_modules db v' →
  added_modules db previous_version v = added_modules db previous_version v'.
Proof. unfold added_modules. by intros ->. Qed.

End WithDatabase.

Lemma Scenario_db_consistent : db_consistent Scenario.db.
Proof.
  intros p Hp. apply elem_of_elements in Hp. revert p Hp.
  apply Forall_forall. vm_compute. repeat constructor.
Qed.

End ReconcilerMoreFacts.

Module ReconcilerExtras.
Import Store Reconciler ReconcilerFacts ReconcilerMoreFacts.

(** X1.  [modules_packages] returns exactly the rows of the [Package]
    table linked to one of the modules given: a link to a key with no
    [Package] row, or a module key with no [Modulemd] row, contributes
    nothing, and the result over a union of module sets is the union of the
    results. *)
Theorem modules_packages_spec (db : Database) (X Y : gset positive)
    (p : positive) :
  (p ∈ modules_packages db X
   ↔ p ∈ Package_objects db
     ∧ ∃ m linked, m ∈ X ∧ Modulemd_objects db !! m = Some linked ∧ p ∈ linked)
  ∧ modules_packages db (X ∪ Y) = modules_packages db X ∪ modules_packages db Y.
Proof.
  split.
  - rewrite elem_of_modules_packages. split.
    + intros (m & Hm & Hp). apply elem_of_packages_all in Hp as [? (l & ? & ?)].
      eauto 10.
    + intros [Hp (m & l & Hm & Hl & Hin)]. exists m. split; [done |].
      apply elem_of_packages_all. eauto.
  - apply set_eq. intros x.
    rewrite elem_of_union, !elem_of_modules_packages. split.
    + intros (m & Hm & Hx). apply elem_of_union in Hm as [?|?]; eauto.
    + intros [(m & Hm & Hx)|(m & Hm & Hx)]; exists m; split; auto;
        apply elem_of_union; auto.
Qed.

(** X2.  With a previous version, no package is both handed to
    [remove_content] and handed to [add_content]. *)
Theorem removed_and_added_disjoint (db : Database)
    (previous version : RepositoryVersion) :
  Package_filter_pk_in db (packages_to_remove db previous version)
    ∩ Package_filter_pk_in db
        (primary_keys
           (packages_to_add db (Some previous)
              (removal_pass db (Some previous) version)))
  = ∅.
Proof.
  rewrite add_content_argument.
  rewrite Package_filter_pk_in_id by apply packages_to_remove_Package.
  apply set_eq. intros p. rewrite elem_of_intersection.
  split; [| set_solver]. intros [Hr Ha].
  by apply packages_to_remove_add_disjoint in Hr.
Qed.

(** X3.  Content that no removed module owns survives the call: whatever
    the version held stays unless it is a package of a module that the
    previous version had and the version no longer has. *)
Theorem unowned_content_survives (db : Database)
    (version : RepositoryVersion)
    (previous_version : option RepositoryVersion) (p : positive) :
  p ∈ content version →
  (∀ previous m, previous_version = Some previous →
     m ∈ previous_modules db previous → m ∉ current_modules db version →
     p ∉ packages_all db m) →
  p ∈ content (resolve_module_packages db version previous_version).
Proof.
  intros Hin Hown. rewrite resolve_module_packages_content.
  apply elem_of_union_l.
  destruct previous_version as [previous|]; [| done].
  rewrite removal_pass_content. apply elem_of_difference. split; [done |].
  unfold packages_to_remove, removed_module_packages, removed_modules.
  rewrite elem_of_difference, elem_of_modules_packages.
  intros [(m & Hm & Hp) _]. apply elem_of_difference in Hm as [Hprev Hncur].
  by apply (Hown previous m).
Qed.

Lemma unowned_content_survives_witness :
  20%positive
    ∈ content (resolve_module_packages Scenario.db Scenario.next
                 (Some Scenario.previous)).
Proof.
  apply (unowned_content_survives Scenario.db Scenario.next
           (Some Scenario.previous) 20%positive).
  - vm_compute. reflexivity.
  - intros previous m _ _ _. rewrite elem_of_packages_all.
    intros [Hp _]. revert Hp. vm_compute. discriminate.
Defined.

(** X4.  Whatever the call brings into the version is a row of the
    [Package] table owned by a module that was added: a module of the
    version which, when there is a previous version, that version lacks. *)
Theorem new_content_is_owned (db : Database) (version : RepositoryVersion)
    (previous_version : option RepositoryVersion) (p : positive) :
  p ∈ content (resolve_module_packages db version previous_version) →
  p ∉ content version →
  p ∈ Package_objects db
  ∧ ∃ m, m ∈ current_modules db version
      ∧ (∀ previous, previous_version = Some previous →
           m ∉ previous_modules db previous)
      ∧ p ∈ packages_all db m.
Proof.
  rewrite resolve_module_packages_content, elem_of_union.
  intros [Hin|Hadd] Hnew.
  { by apply removal_pass_content_subseteq in Hin. }
  split; [by apply modules_packages_Package in Hadd |].
  apply elem_of_modules_packages in Hadd as (m & Hm & Hp).
  apply (added_modules_mono db previous_version _ version) in Hm;
    [| apply removal_pass_content_subseteq].
  exists m. destruct previous_version as [previous|]; simpl in Hm.
  - apply elem_of_difference in Hm as [? ?].
    split; [done |]. split; [| done].
    intros previous' Heq. by injection Heq as <-.
  - split; [done |]. split; [| done]. intros previous' Heq. discriminate.
Qed.

Lemma new_content_is_owned_witness :
  13%positive ∈ Package_objects Scenario.db
  ∧ ∃ m, m ∈ current_modules Scenario.db Scenario.next
      ∧ (∀ previous, Some Scenario.previous = Some previous →
           m ∉ previous_modules Scenario.db previous)
      ∧ 13%positive ∈ packages_all Scenario.db m.
Proof.
  apply (new_content_is_owned Scenario.db Scenario.next
           (Some Scenario.previous) 13%positive).
  - vm_compute. reflexivity.
  - vm_compute. discriminate.
Defined.

(** X5.  In a consistent database the lazy querysets give what snapshots
    taken on entry would: the content after the call is the content before,
    minus [packages_to_remove], plus the packages of the modules the version
    has and the previous version lacks. *)
Theorem resolve_module_packages_closed_form (db : Database)
    (previous version : RepositoryVersion) :
  db_consistent db →
  content (resolve_module_packages db version (Some previous))
  = (content version ∖ packages_to_remove db previous version)
      ∪ modules_packages db
          (current_modules db version ∖ previous_modules db previous).
Proof.
  intros Hdb. rewrite resolve_module_packages_content, removal_pass_content.
  unfold added_module_packages.
  by rewrite (added_modules_stable db (Some previous) version Hdb).
Qed.

Lemma resolve_module_packages_closed_form_witness :
  content (resolve_module_packages Scenario.db Scenario.next
             (Some Scenario.previous))
  = (content Scenario.next
       ∖ packages_to_remove Scenario.db Scenario.previous Scenario.next)
      ∪ modules_packages Scenario.db
          (current_modules Scenario.db Scenario.next
             ∖ previous_modules Scenario.db Scenario.previous).
Proof.
  apply (resolve_module_packages_closed_form Scenario.db Scenario.previous
           Scenario.next Scenario_db_consistent).
Defined.

(** X6.  Without a previous version the content after the call is the
    content before together with every package of every module of the
    version. *)
Theorem first_sync_content (db : Database) (version : RepositoryVersion) :
  content (resolve_module_packages db version None)
  = content version ∪ modules_packages db (current_modules db version).
Proof. by rewrite resolve_module_packages_content. Qed.

(** X7.  In a consistent database, calling [resolve_module_packages] a
    second time against the same previous version changes nothing. *)
Theorem resolve_module_packages_twice (db : Database)
    (version : RepositoryVersion)
    (previous_version : option RepositoryVersion) :
  db_consistent db →
  content (resolve_module_packages db
             (resolve_module_packages db version previous_version)
             previous_version)
  = content (resolve_module_packages db version previous_version).
Proof.
  intros Hdb.
  pose proof (resolve_module_packages_current_modules db previous_version
                version Hdb) as Hmods.
  set (version1 := resolve_module_packages db version previous_version) in *.
  rewrite (resolve_module_packages_content db previous_version version1).
  unfold added_module_packages.
  rewrite (added_modules_stable db previous_version version1 Hdb).
  rewrite (added_modules_modules db previous_version version1 version Hmods).
  assert (Hadded : modules_packages db (added_modules db previous_version version)
                   ⊆ content version1).
  { subst version1. rewrite resolve_module_packages_content.
    unfold added_module_packages.
    rewrite (added_modules_stable db previous_version version Hdb).
    set_solver. }
  destruct previous_version as [previous|].
  - rewrite removal_pass_content.
    rewrite (packages_to_remove_modules db previous version1 version Hmods).
    assert (Hdisj : ∀ p, p ∈ packages_to_remove db previous version →
                    p ∉ modules_packages db
                          (added_modules db (Some previous) version)).
    { intros p Hr Ha. unfold packages_to_remove in Hr.
      apply elem_of_difference in Hr as [_ Hncur]. apply Hncur.
      revert Ha. apply modules_packages_mono, added_modules_subseteq. }
    assert (Hkept : ∀ p, p ∈ content version1 →
                    p ∉ packages_to_remove db previous version).
    { intros p. subst version1.
      rewrite resolve_module_packages_content, removal_pass_content.
      unfold added_module_packages.
      rewrite (added_modules_stable db (Some previous) version Hdb).
      rewrite elem_of_union, elem_of_difference.
      intros [[_ ?]|Ha] Hr; [done |]. by apply Hdisj in Hr. }
    apply set_eq. intros p. rewrite elem_of_union, elem_of_difference.
    split; [intros [[? _]|?]; auto |].
    intros Hp. left. split; [done | by apply Hkept].
  - simpl. set_solver.
Qed.

Lemma resolve_module_packages_twice_witness :
  content (resolve_module_packages Scenario.db
             (resolve_module_packages Scenario.db Scenario.next
                (Some Scenario.previous))
             (Some Scenario.previous))
  = content (resolve_module_packages Scenario.db Scenario.next
               (Some Scenario.previous)).
Proof.
  apply (resolve_module_packages_twice Scenario.db Scenario.next
           (Some Scenario.previous) Scenario_db_consistent).
Defined.

End ReconcilerExtras.

(** * Further properties of the materializer and the decomposer *)

Module SnippetFacts.
Import Effects Materializer MaterializerFacts Decomposer DecomposerFacts.

Lemma for_app {A S : Type} (l1 l2 : list A) (body : A → S → M S) acc cwd :
  for_ (l1 ++ l2) body acc cwd
  = match for_ l1 body acc cwd with
    | (inr acc', cwd') => for_ l2 body acc' cwd'
    | (inl e, cwd') => (inl e, cwd')
    end.
Proof.
  revert acc cwd. induction l1 as [|x l1 IH]; intros acc cwd; simpl; [done |].
  unfold mbind, M_bind. destruct (body x acc cwd) as [[e|acc'] cwd1]; [done |].
  apply IH.
Qed.

(** A loop whose iterations only ever add files only ever adds files. *)
Lemma for_subseteq {A S : Type} (l : list A) (body : A → S → M S) acc cwd :
  (∀ x acc cwd, cwd ⊆ (body x acc cwd).2) →
  cwd ⊆ (for_ l body acc cwd).2.
Proof.
  intros Hbody. revert acc cwd.
  induction l as [|x l IH]; intros acc cwd; simpl; [done |].
  unfold mbind, M_bind. pose proof (Hbody x acc cwd) as Hx.
  destruct (body x acc cwd) as [[e|acc'] cwd1]; simpl in *; [done |].
  etrans; [exact Hx | apply IH].
Qed.

Section WithEnvironment.

Variable hexdigest : string → string.
Variable os : OS.

Lemma create_snippet_subseteq s cwd :
  cwd ⊆ (_create_snippet hexdigest os s cwd).2
  ∧ base.size (_create_snippet hexdigest os s cwd).2 ≤ S (base.size cwd).
Proof.
  unfold _create_snippet, mbind, M_bind, NamedTemporaryFile, open_write,
    init_and_validate.
  destruct (mkstemp os cwd) as [name|]; simpl; [| split; [done | lia]].
  destruct (cwd !! name) eqn:Hfresh; simpl; [split; [done | lia] |].
  assert (Hins : ∀ data, cwd ⊆ <[name := data]> (<[name := EmptyString]> cwd)
                 ∧ base.size (<[name := data]> (<[name := EmptyString]> cwd))
                   ≤ S (base.size cwd)).
  { intros data. rewrite insert_insert_eq. split; [by apply insert_subseteq |].
    by rewrite map_size_insert_None. }
  destruct (write_file os _ name s) as [|partial]; simpl; [| apply Hins].
  rewrite lookup_insert_eq.
  destruct (readable os _ name); simpl; apply Hins.
Qed.

Variable dump_to_string : temp_index → option string.

Lemma snippet_of_subseteq index cwd :
  cwd ⊆ (snippet_of hexdigest os dump_to_string index cwd).2.
Proof.
  unfold snippet_of. destruct (dump_to_string index); [| done].
  apply create_snippet_subseteq.
Qed.

(** A snippet that was materialised: the text, the fresh file holding it
    and the artifact describing it. *)
Lemma snippet_of_inr index cwd a cwd' :
  snippet_of hexdigest os dump_to_string index cwd = (inr a, cwd') →
  ∃ text, dump_to_string index = Some text
    ∧ cwd !! file a = None
    ∧ cwd' = <[file a := text]> cwd
    ∧ size a = String.length text
    ∧ sha256 a = hexdigest text.
Proof.
  unfold snippet_of. destruct (dump_to_string index) as [text|]; [| discriminate].
  intros H. apply create_snippet_inr in H as (name & _ & Hfresh & -> & ->).
  exists text. simpl. by rewrite insert_insert_eq.
Qed.

End WithEnvironment.

End SnippetFacts.

Module MaterializerExtras.
Import Effects Materializer MaterializerFacts SnippetFacts.

(** X8.  Whatever happens, [_create_snippet] neither removes nor
    overwrites a file that was in the working directory and leaves at most
    one more file there; when no temporary file can be created it raises
    [OSError] with the directory untouched. *)
Theorem create_snippet_only_adds (hexdigest : string → string) (os : OS)
    (snippet_string : string) (cwd : gmap string string) :
  cwd ⊆ (_create_snippet hexdigest os snippet_string cwd).2
  ∧ base.size (_create_snippet hexdigest os snippet_string cwd).2 ≤ S (base.size cwd)
  ∧ (mkstemp os cwd = None →
     _create_snippet hexdigest os snippet_string cwd = (inl OSError, cwd)).
Proof.
  destruct (create_snippet_subseteq hexdigest os snippet_string cwd) as [? ?].
  split; [done |]. split; [done |].
  intros Hmk. unfold _create_snippet, mbind, M_bind, NamedTemporaryFile.
  by rewrite Hmk.
Qed.

Lemma create_snippet_only_adds_witness :
  _create_snippet Scenario.hexdigest
    {| mkstemp := λ _, None; write_file := λ _ _ _, written;
       readable := λ _ _, true |}
    "document: modulemd" {[ "repomd.xml" := "<repomd/>" ]}
  = (inl OSError, {[ "repomd.xml" := "<repomd/>" ]}).
Proof.
  apply (create_snippet_only_adds Scenario.hexdigest
           {| mkstemp := λ _, None; write_file := λ _ _ _, written;
              readable := λ _ _, true |}
           "document: modulemd" {[ "repomd.xml" := "<repomd/>" ]}).
  reflexivity.
Defined.

(** X9.  When [_create_snippet] returns, the file of the artifact did not
    exist before, the working directory is the one before with that file
    holding exactly the snippet text, and the size of the artifact is the
    length of the text. *)
Theorem create_snippet_returns_written (hexdigest : string → string) (os : OS)
    (snippet_string : string) (cwd cwd' : gmap string string) (a : Artifact) :
  _create_snippet hexdigest os snippet_string cwd = (inr a, cwd') →
  cwd !! file a = None
  ∧ cwd' = <[file a := snippet_string]> cwd
  ∧ size a = String.length snippet_string.
Proof.
  intros H. apply create_snippet_inr in H as (name & _ & Hfresh & -> & ->).
  simpl. by rewrite insert_insert_eq.
Qed.

Lemma create_snippet_returns_written_witness :
  ({[ "repomd.xml" := "<repomd/>" ]} : gmap string string) !! "tmp" = None
  ∧ ({[ "repomd.xml" := "<repomd/>"; "tmp" := "document: modulemd" ]}
       : gmap string string)
    = <[ "tmp" := "document: modulemd" ]> {[ "repomd.xml" := "<repomd/>" ]}
  ∧ 18 = String.length "document: modulemd".
Proof.
  apply (create_snippet_returns_written Scenario.hexdigest Scenario.good_os
           "document: modulemd" {[ "repomd.xml" := "<repomd/>" ]}
           {[ "repomd.xml" := "<repomd/>"; "tmp" := "document: modulemd" ]}
           {| file := "tmp"; size := 18;
              sha256 := "sha256:document: modulemd" |}).
  by vm_compute.
Defined.

(** X10.  Two calls of [_create_snippet] that return one after the other
    in the same working directory use different files, and afterwards each
    file holds the text of its own call, also when the two texts are the
    same. *)
Theorem create_snippet_twice_distinct_files (hexdigest : string → string)
    (os1 os2 : OS) (s1 s2 : string) (cwd cwd1 cwd2 : gmap string string)
    (a1 a2 : Artifact) :
  _create_snippet hexdigest os1 s1 cwd = (inr a1, cwd1) →
  _create_snippet hexdigest os2 s2 cwd1 = (inr a2, cwd2) →
  file a1 ≠ file a2
  ∧ cwd2 !! file a1 = Some s1
  ∧ cwd2 !! file a2 = Some s2.
Proof.
  intros H1 H2.
  apply create_snippet_inr in H1 as (n1 & _ & Hf1 & -> & ->).
  apply create_snippet_inr in H2 as (n2 & _ & Hf2 & -> & ->).
  simpl. rewrite insert_insert_eq in Hf2.
  assert (Hne : n1 ≠ n2).
  { intros ->. by rewrite lookup_insert_eq in Hf2. }
  split; [done |]. rewrite !insert_insert_eq. split.
  - by rewrite lookup_insert_ne, lookup_insert_eq.
  - by rewrite lookup_insert_eq.
Qed.

Lemma create_snippet_twice_distinct_files_witness :
  "tmp" ≠ "tmp0"
  ∧ ({[ "tmp" := "document: modulemd"; "tmp0" := "document: modulemd" ]}
       : gmap string string) !! "tmp" = Some "document: modulemd"
  ∧ ({[ "tmp" := "document: modulemd"; "tmp0" := "document: modulemd" ]}
       : gmap string string) !! "tmp0" = Some "document: modulemd".
Proof.
  apply (create_snippet_twice_distinct_files Scenario.hexdigest
           Scenario.good_os Scenario.good_os
           "document: modulemd" "document: modulemd" ∅
           {[ "tmp" := "document: modulemd" ]}
           {[ "tmp" := "document: modulemd"; "tmp0" := "document: modulemd" ]}
           {| file := "tmp"; size := 18;
              sha256 := "sha256:document: modulemd" |}
           {| file := "tmp0"; size := 18;
              sha256 := "sha256:document: modulemd" |});
    by vm_compute.
Defined.

End MaterializerExtras.

Module DecomposerMoreFacts.
Import Effects Materializer MaterializerFacts Decomposer DecomposerFacts
  SnippetFacts.

Lemma Forall2_Forall_right {A B : Type} (P : A → B → Prop) (Q : B → Prop)
    (l : list A) (k : list B) :
  Forall2 P l k → (∀ x y, P x y → Q y) → Forall Q k.
Proof. intros H HPQ. induction H; constructor; eauto. Qed.

Section Dict.

Context {V : Type}.
Implicit Types (d : list (string * V)) (k : string) (v : V).

Lemma dict_get_None d k : dict_get d k = None ↔ k ∉ d.*1.
Proof.
  induction d as [|[k' v'] d IH]; simpl.
  - split; [intros _; apply not_elem_of_nil | done].
  - rewrite not_elem_of_cons. destruct (decide (k' = k)) as [->|Hne].
    + split; [discriminate | by intros [? _]].
    + rewrite IH. split; [by intros ? | by intros [_ ?]].
Qed.

Lemma dict_set_keys d k v :
  (dict_set d k v).*1 = if decide (k ∈ d.*1) then d.*1 else d.*1 ++ [k].
Proof.
  induction d as [|[k' v'] d IH].
  - destruct (decide (k ∈ ([] : list (string * V)).*1)) as [Hin|_]; [| done].
    by apply elem_of_nil in Hin.
  - cbn [dict_set]. destruct (decide (k' = k)) as [->|Hne].
    + rewrite decide_True; [done | by left].
    + rewrite fmap_cons, IH. cbn [fst].
      destruct (decide (k ∈ d.*1)) as [Hin|Hnin].
      * rewrite decide_True; [done | by right].
      * rewrite decide_False; [done |].
        rewrite fmap_cons, not_elem_of_cons. simpl. split; [congruence | done].
Qed.

Lemma dict_set_NoDup d k v : NoDup d.*1 → NoDup (dict_set d k v).*1.
Proof.
  intros Hd. rewrite dict_set_keys. destruct (decide (k ∈ d.*1)); [done |].
  apply NoDup_app. split; [done |]. split; [| apply NoDup_singleton].
  intros x Hx Hk. apply list_elem_of_singleton in Hk as ->. done.
Qed.

End Dict.

Lemma add_clause_NoDup dependencies dep :
  NoDup dependencies.*1 → NoDup (add_clause dependencies dep).*1.
Proof.
  unfold add_clause. generalize (get_runtime_modules dep) as l.
  intros l. revert dependencies.
  induction l as [|x l IH]; intros dependencies Hd; simpl; [done |].
  by apply IH, dict_set_NoDup.
Qed.

Lemma add_clause_is_Some dependencies dep name :
  is_Some (dict_get (add_clause dependencies dep) name)
  ↔ name ∈ get_runtime_modules dep ∨ is_Some (dict_get dependencies name).
Proof.
  destruct (decide (name ∈ get_runtime_modules dep)) as [Hin|Hnin].
  - rewrite add_clause_listed by done. split; [by left | eauto].
  - rewrite add_clause_not_listed by done. split; [by right | by intros [?|?]].
Qed.

Lemma add_clauses_is_Some dependencies deps name :
  is_Some (dict_get (foldl add_clause dependencies deps) name)
  ↔ is_Some (dict_get dependencies name)
    ∨ ∃ dep, dep ∈ deps ∧ name ∈ get_runtime_modules dep.
Proof.
  revert dependencies. induction deps as [|dep deps IH]; intros dependencies; simpl.
  - split; [by left |]. intros [?|(dep & Hin & _)]; [done |].
    by apply elem_of_nil in Hin.
  - rewrite IH, add_clause_is_Some. split.
    + intros [[?|?]|(dep' & Hin & ?)]; [right; exists dep | by left
                                        | right; exists dep'];
        split; auto; [by left | by right].
    + intros [?|(dep' & Hin & ?)]; [by left; right |].
      apply elem_of_cons in Hin as [->|Hin]; [by left; left | right; eauto].
Qed.

Lemma add_clauses_NoDup dependencies deps :
  NoDup dependencies.*1 → NoDup (foldl add_clause dependencies deps).*1.
Proof.
  revert dependencies. induction deps as [|dep deps IH];
    intros dependencies Hd; simpl; [done |].
  by apply IH, add_clause_NoDup.
Qed.

Lemma add_clause_nothing dependencies dep :
  get_runtime_modules dep = [] → add_clause dependencies dep = dependencies.
Proof. unfold add_clause. by intros ->. Qed.

Section WithLibraries.

Variable encode_basestring : string → string.
Variable hexdigest : string → string.
Variable os : OS.
Variable dump_to_string : temp_index → option string.

Local Abbreviation parse_stream :=
  (parse_modulemd_stream encode_basestring hexdigest os dump_to_string).
Local Abbreviation parse_module :=
  (parse_modulemd_module encode_basestring hexdigest os dump_to_string).
Local Abbreviation parse_default :=
  (parse_defaults_module encode_basestring hexdigest os dump_to_string).

(** The snippet of [index] sits in a file that [cwd] lacked and [cwd']
    holds, and [a] describes it. *)
Local Abbreviation snippet_in cwd cwd' index a :=
  (∃ text, dump_to_string index = Some text
     ∧ cwd !! file a = None
     ∧ cwd' !! file a = Some text
     ∧ sha256 a = hexdigest text
     ∧ size a = String.length text).

(** The loops only append: starting from [ret] is starting from the empty
    list and putting [ret] in front. *)
Lemma parse_streams_shift streams ret cwd :
  for_ streams parse_stream ret cwd
  = match for_ streams parse_stream [] cwd with
    | (inr recs, cwd') => (inr (ret ++ recs), cwd')
    | (inl e, cwd') => (inl e, cwd')
    end.
Proof.
  revert ret cwd. induction streams as [|s streams IH]; intros ret cwd; simpl.
  - unfold mret, M_ret. by rewrite app_nil_r.
  - unfold mbind, M_bind, parse_modulemd_stream at 1 3.
    unfold mbind, M_bind.
    destruct (snippet_of hexdigest os dump_to_string (add_module_stream s) cwd)
      as [[e|a] cwd1]; [done |].
    unfold mret, M_ret. rewrite (IH (ret ++ _)), (IH ([] ++ _)).
    destruct (for_ streams parse_stream [] cwd1) as [[e|recs] cwd2]; [done |].
    by rewrite <- app_assoc.
Qed.

Lemma parse_modules_shift module_index names ret cwd :
  for_ names (parse_module module_index) ret cwd
  = match for_ names (parse_module module_index) [] cwd with
    | (inr recs, cwd') => (inr (ret ++ recs), cwd')
    | (inl e, cwd') => (inl e, cwd')
    end.
Proof.
  revert ret cwd. induction names as [|name names IH]; intros ret cwd; simpl.
  - unfold mret, M_ret. by rewrite app_nil_r.
  - unfold mbind, M_bind, parse_modulemd_module at 1 3.
    destruct (get_module module_index name) as [modulemd|]; [| done].
    rewrite parse_streams_shift.
    destruct (for_ (get_all_streams modulemd) parse_stream [] cwd)
      as [[e|recs1] cwd1]; [done |].
    rewrite (IH (ret ++ recs1)), (IH recs1).
    destruct (for_ names (parse_module module_index) [] cwd1)
      as [[e|recs] cwd2]; [done |].
    by rewrite <- app_assoc.
Qed.

Lemma parse_module_subseteq module_index name ret cwd :
  cwd ⊆ (parse_module module_index name ret cwd).2.
Proof.
  unfold parse_modulemd_module.
  destruct (get_module module_index name) as [modulemd|]; [| done].
  apply for_subseteq. intros s acc cwd0. unfold parse_modulemd_stream.
  unfold mbind, M_bind.
  pose proof (snippet_of_subseteq hexdigest os dump_to_string
                (add_module_stream s) cwd0) as Hs.
  by destruct (snippet_of hexdigest os dump_to_string (add_module_stream s) cwd0)
    as [[e|a] cwd1].
Qed.

Lemma parse_default_subseteq module_index name ret cwd :
  cwd ⊆ (parse_default module_index name ret cwd).2.
Proof.
  unfold parse_defaults_module.
  destruct (get_module module_index name) as [modulemd|]; [| done].
  destruct (get_defaults modulemd) as [defaults|]; [| done].
  unfold mbind, M_bind.
  pose proof (snippet_of_subseteq hexdigest os dump_to_string
                (add_defaults defaults) cwd) as Hs.
  by destruct (snippet_of hexdigest os dump_to_string (add_defaults defaults) cwd)
    as [[e|a] cwd1].
Qed.

(** The inner loop of [parse_modulemd], with the files it leaves. *)
Lemma parse_streams_files streams ret cwd ret' cwd' :
  for_ streams parse_stream ret cwd = (inr ret', cwd') →
  ∃ recs, ret' = ret ++ recs
    ∧ cwd ⊆ cwd'
    ∧ Forall2 (λ s r, snippet_in cwd cwd' (add_module_stream s) (artifact r))
        streams recs
    ∧ NoDup ((λ r, file (artifact r)) <$> recs).
Proof.
  revert ret cwd. induction streams as [|s streams IH]; intros ret cwd H; simpl in H.
  - injection H as <- <-. exists []. rewrite app_nil_r.
    repeat split; [done | constructor | constructor].
  - apply bind_inr in H as (ret1 & cwd1 & Hs & H).
    unfold parse_modulemd_stream in Hs.
    apply bind_inr in Hs as (a & cwd2 & Ha & Hs). injection Hs as <- <-.
    apply snippet_of_inr in Ha as (text & Htext & Hfresh & -> & Hsize & Hsha).
    apply IH in H as (recs & -> & Hsub & Hrecs & Hnd).
    assert (Hsub0 : cwd ⊆ <[file a := text]> cwd) by by apply insert_subseteq.
    exists (modulemd_of encode_basestring s a :: recs).
    rewrite <- app_assoc. split; [done |]. split; [by etrans |]. split.
    + constructor.
      * exists text. simpl. repeat split; try done.
        eapply lookup_weaken; [apply lookup_insert_eq | done].
      * eapply Forall2_impl; [exact Hrecs |].
        intros s' r (text' & ? & Hnone & ? & ? & ?). exists text'.
        repeat split; try done. by eapply lookup_weaken_None.
    + simpl. constructor; [| done].
      intros Hin. apply list_elem_of_fmap in Hin as (r & Hfile & Hr).
      eapply Forall2_Forall_right in Hrecs;
        [| intros s' r' (_ & _ & Hnone & _); exact Hnone].
      rewrite Forall_forall in Hrecs. apply Hrecs in Hr. simpl in Hr.
      rewrite <- Hfile, lookup_insert_eq in Hr. discriminate.
Qed.

Lemma parse_modules_files module_index names ret cwd ret' cwd' :
  for_ names (parse_module module_index) ret cwd = (inr ret', cwd') →
  ∃ modules recs,
    Forall2 (λ name modulemd, get_module module_index name = Some modulemd)
      names modules
    ∧ ret' = ret ++ recs
    ∧ cwd ⊆ cwd'
    ∧ Forall2 (λ s r, snippet_in cwd cwd' (add_module_stream s) (artifact r))
        (concat (get_all_streams <$> modules)) recs
    ∧ NoDup ((λ r, file (artifact r)) <$> recs).
Proof.
  revert ret cwd. induction names as [|name names IH]; intros ret cwd H; simpl in H.
  - injection H as <- <-. exists [], []. rewrite app_nil_r.
    repeat split; [constructor | done | constructor | constructor].
  - apply bind_inr in H as (ret1 & cwd1 & Hm & H).
    unfold parse_modulemd_module in Hm.
    destruct (get_module module_index name) as [modulemd|] eqn:Hget;
      [| discriminate].
    apply parse_streams_files in Hm as (recs1 & -> & Hsub1 & Hrecs1 & Hnd1).
    apply IH in H as (modules & recs & Hmods & -> & Hsub & Hrecs & Hnd).
    exists (modulemd :: modules), (recs1 ++ recs).
    split; [by constructor |]. split; [by rewrite app_assoc |].
    split; [by etrans |]. split.
    + simpl. apply Forall2_app.
      * eapply Forall2_impl; [exact Hrecs1 |].
        intros s r (text & ? & ? & Hsome & ? & ?). exists text.
        repeat split; try done. by eapply lookup_weaken.
      * eapply Forall2_impl; [exact Hrecs |].
        intros s r (text & ? & Hnone & ? & ? & ?). exists text.
        repeat split; try done. by eapply lookup_weaken_None.
    + rewrite fmap_app. apply NoDup_app. split; [done |]. split; [| done].
      intros f Hin1 Hin.
      apply list_elem_of_fmap in Hin1 as (r1 & -> & Hr1).
      apply list_elem_of_fmap in Hin as (r & Hfile & Hr).
      eapply Forall2_Forall_right in Hrecs1;
        [| intros s' r' (text & _ & _ & Hsome & _); exact (mk_is_Some _ _ Hsome)].
      eapply Forall2_Forall_right in Hrecs;
        [| intros s' r' (_ & _ & Hnone & _); exact Hnone].
      rewrite Forall_forall in Hrecs1, Hrecs.
      apply Hrecs1 in Hr1 as [text Hsome]. apply Hrecs in Hr. simpl in *.
      rewrite Hfile in Hsome. congruence.
Qed.

(** The loop of [parse_defaults], with the files it leaves. *)
Lemma parse_defaults_files module_index names ret cwd ret' cwd' :
  for_ names (parse_default module_index) ret cwd = (inr ret', cwd') →
  ∃ recs, ret' = ret ++ recs
    ∧ cwd ⊆ cwd'
    ∧ Forall (λ name, is_Some (get_module module_index name)) names
    ∧ Forall2
        (λ md r, r = defaults_of encode_basestring md.1 md.2 (defaults_artifact r)
                 ∧ snippet_in cwd cwd' (add_defaults md.2) (defaults_artifact r))
        (omap (λ name, modulemd ← get_module module_index name;
                       defaults ← get_defaults modulemd;
                       Some (modulemd, defaults)) names)
        recs
    ∧ NoDup ((λ r, file (defaults_artifact r)) <$> recs).
Proof.
  revert ret cwd. induction names as [|name names IH]; intros ret cwd H; simpl in H.
  - injection H as <- <-. exists []. rewrite app_nil_r.
    repeat split; [done | constructor | constructor | constructor].
  - apply bind_inr in H as (ret1 & cwd1 & Hm & H).
    unfold parse_defaults_module in Hm. simpl.
    destruct (get_module module_index name) as [modulemd|] eqn:Hget;
      [| discriminate].
    simpl. destruct (get_defaults modulemd) as [defaults|] eqn:Hdef; simpl.
    + apply bind_inr in Hm as (a & cwd2 & Ha & Hm). injection Hm as <- <-.
      apply snippet_of_inr in Ha as (text & Htext & Hfresh & -> & Hsize & Hsha).
      apply IH in H as (recs & -> & Hsub & Hres & Hrecs & Hnd).
      assert (Hsub0 : cwd ⊆ <[file a := text]> cwd) by by apply insert_subseteq.
      exists (defaults_of encode_basestring modulemd defaults a :: recs).
      rewrite <- app_assoc. split; [done |]. split; [by etrans |].
      split; [constructor; [by rewrite Hget | done] |]. split.
      * constructor.
        -- split; [done |]. exists text. simpl. repeat split; try done.
           eapply lookup_weaken; [apply lookup_insert_eq | done].
        -- eapply Forall2_impl; [exact Hrecs |].
           intros md r (? & text' & ? & Hnone & ? & ? & ?).
           split; [done |]. exists text'.
           repeat split; try done. by eapply lookup_weaken_None.
      * simpl. constructor; [| done].
        intros Hin. apply list_elem_of_fmap in Hin as (r & Hfile & Hr).
        eapply Forall2_Forall_right in Hrecs;
          [| intros md r' (_ & _ & _ & Hnone & _); exact Hnone].
        rewrite Forall_forall in Hrecs. apply Hrecs in Hr. simpl in Hr.
        rewrite <- Hfile, lookup_insert_eq in Hr. discriminate.
    + injection Hm as <- <-.
      apply IH in H as (recs & -> & Hsub & Hres & Hrecs & Hnd).
      exists recs. repeat split; try done. constructor; [by rewrite Hget | done].
Qed.

Lemma parse_defaults_reliable module_index names ret cwd :
  reliable os → (∀ index, is_Some (dump_to_string index)) →
  (∀ name, name ∈ names → is_Some (get_module module_index name)) →
  ∃ ret' cwd',
    for_ names (parse_default module_index) ret cwd = (inr ret', cwd').
Proof.
  intros Hos Hdump. revert ret cwd.
  induction names as [|name names IH]; intros ret cwd Hnames; simpl;
    [by eexists _, _ |].
  destruct (Hnames name) as [modulemd Hget]; [by left |].
  assert (Hstep : ∃ ret1 cwd1,
            parse_default module_index name ret cwd = (inr ret1, cwd1)).
  { unfold parse_defaults_module. rewrite Hget.
    destruct (get_defaults modulemd) as [defaults|]; [| by eexists _, _].
    destruct (snippet_of_reliable hexdigest os dump_to_string
                (add_defaults defaults) cwd Hos (Hdump _)) as (a & cwd1 & Ha).
    erewrite bind_inr_intro; [| exact Ha]. by eexists _, _. }
  destruct Hstep as (ret1 & cwd1 & Hstep).
  erewrite bind_inr_intro; [| exact Hstep].
  apply IH. intros name' Hin. apply Hnames. by right.
Qed.

End WithLibraries.

End DecomposerMoreFacts.

Module ScenarioFacts.
Import Effects Materializer Decomposer.

Lemma good_os_reliable : reliable Scenario.good_os.
Proof.
  split; [| by split].
  intros cwd. eexists. split; [reflexivity |]. apply fresh_string_fresh.
Qed.

Lemma dump_to_string_total index : is_Some (Scenario.dump_to_string index).
Proof. destruct index; simpl; eauto. Qed.

End ScenarioFacts.

Module DecomposerExtras.
Import Effects Materializer MaterializerFacts Decomposer DecomposerFacts
  SnippetFacts DecomposerMoreFacts ScenarioFacts.

(** X11.  The [dependencies] dict of a stream has an entry for a module
    name exactly when some clause lists that name at run time, and no key
    occurs twice. *)
Theorem stream_dependencies_keys (dependencies_list : list Dependencies)
    (name : string) :
  (is_Some (dict_get (stream_dependencies dependencies_list) name)
   ↔ ∃ dep, dep ∈ dependencies_list ∧ name ∈ get_runtime_modules dep)
  ∧ NoDup (stream_dependencies dependencies_list).*1.
Proof.
  unfold stream_dependencies. split.
  - rewrite add_clauses_is_Some. split; [| by right].
    intros [[v Hv]|?]; [discriminate | done].
  - apply add_clauses_NoDup. constructor.
Qed.

(** X12.  A stream none of whose clauses lists a run-time module, in
    particular a stream without clauses, gets the empty JSON object under
    [DEPENDENCIES]. *)
Theorem no_runtime_modules_empty_object (encode_basestring : string → string)
    (s : ModuleStream) (snippet : Artifact) :
  (∀ dep, dep ∈ get_dependencies s → get_runtime_modules dep = []) →
  DEPENDENCIES (modulemd_of encode_basestring s snippet) = "{}".
Proof.
  intros Hnone. simpl.
  assert (Hempty : ∀ d, foldl add_clause d (get_dependencies s) = d).
  { revert Hnone. generalize (get_dependencies s) as deps.
    induction deps as [|dep deps IH]; intros Hnone d; simpl; [done |].
    rewrite add_clause_nothing by (apply Hnone; by left).
    apply IH. intros dep' Hin. apply Hnone. by right. }
  unfold stream_dependencies. by rewrite Hempty.
Qed.

Lemma no_runtime_modules_empty_object_witness :
  DEPENDENCIES
    (modulemd_of Scenario.encode_basestring Scenario.gorilla_unstable
       {| file := "tmp"; size := 0; sha256 := EmptyString |})
  = "{}".
Proof.
  apply (no_runtime_modules_empty_object Scenario.encode_basestring
           Scenario.gorilla_unstable).
  intros dep Hin. by apply elem_of_nil in Hin.
Defined.

(** X13.  A requested name that the index does not know makes
    [parse_modulemd] raise: no list is returned, not even for the names
    that resolve.  When the names before it resolve and neither the
    operating system nor the serializer fails, the exception is the
    [AttributeError] of calling [get_all_streams] on [None]. *)
Theorem parse_modulemd_unknown_name (encode_basestring hexdigest : string → string)
    (os : OS) (dump_to_string : temp_index → option string)
    (before after : list string) (name : string) (module_index : ModuleIndex)
    (cwd : gmap string string) :
  get_module module_index name = None →
  (∃ e cwd',
     parse_modulemd encode_basestring hexdigest os dump_to_string
       (before ++ name :: after) module_index cwd = (inl e, cwd'))
  ∧ (reliable os →
     (∀ index, is_Some (dump_to_string index)) →
     (∀ name', name' ∈ before → is_Some (get_module module_index name')) →
     ∃ cwd',
       parse_modulemd encode_basestring hexdigest os dump_to_string
         (before ++ name :: after) module_index cwd
       = (inl AttributeError, cwd')).
Proof.
  intros Hnone. split.
  - destruct (parse_modulemd encode_basestring hexdigest os dump_to_string
                (before ++ name :: after) module_index cwd)
      as [[e|ret] cwd'] eqn:Hrun; [eauto |].
    unfold parse_modulemd in Hrun.
    apply parse_modules_inr in Hrun as (modules & recs & Hmods & _).
    apply Forall2_app_inv_l in Hmods as (ms1 & ms2 & _ & Hmods & _).
    apply Forall2_cons_inv_l in Hmods as (m & ms & Hget & _). congruence.
  - intros Hos Hdump Hbefore. unfold parse_modulemd. rewrite for_app.
    destruct (parse_modules_reliable encode_basestring hexdigest os
                dump_to_string module_index before [] cwd Hos Hdump Hbefore)
      as (ret1 & cwd1 & ->).
    simpl. unfold mbind, M_bind, parse_modulemd_module. rewrite Hnone.
    by exists cwd1.
Qed.

Lemma parse_modulemd_unknown_name_witness :
  ∃ cwd',
    parse_modulemd Scenario.encode_basestring Scenario.hexdigest
      Scenario.good_os Scenario.dump_to_string
      (["gorilla"] ++ "zebra" :: ["walrus"]) Scenario.index ∅
    = (inl AttributeError, cwd').
Proof.
  refine (proj2 (parse_modulemd_unknown_name Scenario.encode_basestring
    Scenario.hexdigest Scenario.good_os Scenario.dump_to_string
    ["gorilla"] ["walrus"] "zebra" Scenario.index ∅ _)
    good_os_reliable dump_to_string_total _).
  - reflexivity.
  - intros name' Hin. apply list_elem_of_singleton in Hin as ->. simpl. eauto.
Defined.

(** X14.  A default-stream key that the index cannot resolve to a module
    makes [parse_defaults] raise, unlike a module without a defaults object,
    which is skipped.  When the keys before it resolve and neither the
    operating system nor the serializer fails, the exception is the
    [AttributeError] of calling [get_defaults] on [None]. *)
Theorem parse_defaults_unknown_module (encode_basestring hexdigest : string → string)
    (os : OS) (dump_to_string : temp_index → option string)
    (before after : list string) (name : string) (module_index : ModuleIndex)
    (cwd : gmap string string) :
  (get_default_streams module_index).*1 = before ++ name :: after →
  get_module module_index name = None →
  (∃ e cwd',
     parse_defaults encode_basestring hexdigest os dump_to_string
       module_index cwd = (inl e, cwd'))
  ∧ (reliable os →
     (∀ index, is_Some (dump_to_string index)) →
     (∀ name', name' ∈ before → is_Some (get_module module_index name')) →
     ∃ cwd',
       parse_defaults encode_basestring hexdigest os dump_to_string
         module_index cwd = (inl AttributeError, cwd')).
Proof.
  intros Hkeys Hnone. unfold parse_defaults. rewrite Hkeys. split.
  - destruct (for_ (before ++ name :: after)
                (parse_defaults_module encode_basestring hexdigest os
                   dump_to_string module_index) [] cwd)
      as [[e|ret] cwd'] eqn:Hrun; [eauto |].
    apply parse_defaults_files in Hrun as (recs & _ & _ & Hres & _).
    rewrite Forall_app, Forall_cons in Hres.
    destruct Hres as (_ & [m Hm] & _). congruence.
  - intros Hos Hdump Hbefore. rewrite for_app.
    destruct (parse_defaults_reliable encode_basestring hexdigest os
                dump_to_string module_index before [] cwd Hos Hdump Hbefore)
      as (ret1 & cwd1 & ->).
    simpl. unfold mbind, M_bind, parse_defaults_module. rewrite Hnone.
    by exists cwd1.
Qed.

Lemma parse_defaults_unknown_module_witness :
  ∃ cwd',
    parse_defaults Scenario.encode_basestring Scenario.hexdigest
      Scenario.good_os Scenario.dump_to_string
      {| get_module := get_module Scenario.index;
         get_default_streams := [("walrus", "5.21"); ("zebra", "1")] |} ∅
    = (inl AttributeError, cwd').
Proof.
  refine (proj2 (parse_defaults_unknown_module Scenario.encode_basestring
    Scenario.hexdigest Scenario.good_os Scenario.dump_to_string
    ["walrus"] [] "zebra"
    {| get_module := get_module Scenario.index;
       get_default_streams := [("walrus", "5.21"); ("zebra", "1")] |} ∅ _ _)
    good_os_reliable dump_to_string_total _).
  - reflexivity.
  - reflexivity.
  - intros name' Hin. apply list_elem_of_singleton in Hin as ->. simpl. eauto.
Defined.

(** X15.  Decomposing a list of names is decomposing a first part, then
    the rest in the directory the first part left, and appending the two
    lists; an exception in either part is the exception of the whole. *)
Theorem parse_modulemd_app (encode_basestring hexdigest : string → string)
    (os : OS) (dump_to_string : temp_index → option string)
    (names1 names2 : list string) (module_index : ModuleIndex)
    (cwd : gmap string string) :
  parse_modulemd encode_basestring hexdigest os dump_to_string
    (names1 ++ names2) module_index cwd
  = match parse_modulemd encode_basestring hexdigest os dump_to_string
            names1 module_index cwd with
    | (inr ret1, cwd1) =>
        match parse_modulemd encode_basestring hexdigest os dump_to_string
                names2 module_index cwd1 with
        | (inr ret2, cwd2) => (inr (ret1 ++ ret2), cwd2)
        | (inl e, cwd2) => (inl e, cwd2)
        end
    | (inl e, cwd1) => (inl e, cwd1)
    end.
Proof.
  unfold parse_modulemd. rewrite for_app.
  destruct (for_ names1 _ [] cwd) as [[e|ret1] cwd1]; [done |].
  apply parse_modules_shift.
Qed.

(** X16.  When [parse_modulemd] returns, the artifact of each dictionary
    points at a file that was not in the working directory before and now
    holds exactly the serialization of the index containing only that
    stream, with the digest and size of that text; no two dictionaries
    share a file, and the files that were there before are as they were. *)
Theorem parse_modulemd_snippets (encode_basestring hexdigest : string → string)
    (os : OS) (dump_to_string : temp_index → option string)
    (module_names : list string) (module_index : ModuleIndex)
    (cwd cwd' : gmap string string) (ret : list modulemd_dict) :
  parse_modulemd encode_basestring hexdigest os dump_to_string
    module_names module_index cwd = (inr ret, cwd') →
  cwd ⊆ cwd'
  ∧ NoDup ((λ r, file (artifact r)) <$> ret)
  ∧ ∃ modules,
      Forall2 (λ name modulemd, get_module module_index name = Some modulemd)
        module_names modules
      ∧ Forall2
          (λ s r, ∃ text,
             dump_to_string (add_module_stream s) = Some text
             ∧ cwd !! file (artifact r) = None
             ∧ cwd' !! file (artifact r) = Some text
             ∧ sha256 (artifact r) = hexdigest text
             ∧ size (artifact r) = String.length text)
          (concat (get_all_streams <$> modules)) ret.
Proof.
  intros H. unfold parse_modulemd in H.
  apply parse_modules_files in H
    as (modules & recs & Hmods & -> & Hsub & Hrecs & Hnd).
  simpl. split; [done |]. split; [done |]. by exists modules.
Qed.

Lemma parse_modulemd_snippets_witness :
  ∃ ret cwd',
    parse_modulemd Scenario.encode_basestring Scenario.hexdigest
      Scenario.good_os Scenario.dump_to_string ["gorilla"] Scenario.index
      {[ "repomd.xml" := "<repomd/>" ]}
    = (inr ret, cwd')
    ∧ cwd' !! "repomd.xml" = Some "<repomd/>"
    ∧ NoDup ((λ r, file (artifact r)) <$> ret).
Proof.
  destruct (parse_modules_reliable Scenario.encode_basestring
              Scenario.hexdigest Scenario.good_os Scenario.dump_to_string
              Scenario.index ["gorilla"] [] {[ "repomd.xml" := "<repomd/>" ]}
              good_os_reliable dump_to_string_total)
    as (ret & cwd' & Hrun).
  { intros name Hin. apply list_elem_of_singleton in Hin as ->. simpl. eauto. }
  exists ret, cwd'. split; [exact Hrun |].
  destruct (parse_modulemd_snippets _ _ _ _ _ _ _ _ _ Hrun) as (Hsub & Hnd & _).
  split; [| exact Hnd].
  eapply lookup_weaken; [| exact Hsub]. apply lookup_singleton_eq.
Defined.

(** X17.  Whether they return or raise, [parse_modulemd] and
    [parse_defaults] neither remove nor overwrite a file that was in the
    working directory: the snippets written before a failure stay. *)
Theorem decomposition_only_adds_files (encode_basestring hexdigest : string → string)
    (os : OS) (dump_to_string : temp_index → option string)
    (module_names : list string) (module_index : ModuleIndex)
    (cwd : gmap string string) :
  cwd ⊆ (parse_modulemd encode_basestring hexdigest os dump_to_string
           module_names module_index cwd).2
  ∧ cwd ⊆ (parse_defaults encode_basestring hexdigest os dump_to_string
             module_index cwd).2.
Proof.
  split.
  - apply for_subseteq. intros. apply parse_module_subseteq.
  - apply for_subseteq. intros. apply parse_default_subseteq.
Qed.

(** X18.  When [parse_defaults] returns, the [DIGEST] of each dictionary
    is the digest of its artifact and of the serialization of the index
    containing only the defaults object of its module; the artifact points
    at a file, not there before and shared with no other dictionary, that
    holds exactly that text. *)
Theorem parse_defaults_digests (encode_basestring hexdigest : string → string)
    (os : OS) (dump_to_string : temp_index → option string)
    (module_index : ModuleIndex) (cwd cwd' : gmap string string)
    (ret : list defaults_dict) :
  parse_defaults encode_basestring hexdigest os dump_to_string
    module_index cwd = (inr ret, cwd') →
  NoDup ((λ r, file (defaults_artifact r)) <$> ret)
  ∧ Forall2
      (λ md r, ∃ text,
         dump_to_string (add_defaults md.2) = Some text
         ∧ defaults_MODULE r = get_module_name md.1
         ∧ defaults_DIGEST r = sha256 (defaults_artifact r)
         ∧ defaults_DIGEST r = hexdigest text
         ∧ cwd !! file (defaults_artifact r) = None
         ∧ cwd' !! file (defaults_artifact r) = Some text)
      (omap (λ name, modulemd ← get_module module_index name;
                     defaults ← get_defaults modulemd;
                     Some (modulemd, defaults))
            (get_default_streams module_index).*1)
      ret.
Proof.
  intros H. unfold parse_defaults in H.
  apply parse_defaults_files in H as (recs & -> & _ & _ & Hrecs & Hnd).
  simpl. split; [done |].
  eapply Forall2_impl; [exact Hrecs |].
  intros md r (Hr & text & ? & ? & ? & Hsha & ?). exists text.
  rewrite Hr. simpl. rewrite Hr in Hsha. simpl in Hsha.
  repeat split; done.
Qed.

Lemma parse_defaults_digests_witness :
  ∃ ret cwd',
    parse_defaults Scenario.encode_basestring Scenario.hexdigest
      Scenario.good_os Scenario.dump_to_string Scenario.index ∅
    = (inr ret, cwd')
    ∧ NoDup ((λ r, file (defaults_artifact r)) <$> ret).
Proof.
  destruct (parse_defaults_reliable Scenario.encode_basestring
              Scenario.hexdigest Scenario.good_os Scenario.dump_to_string
              Scenario.index (get_default_streams Scenario.index).*1 [] ∅
              good_os_reliable dump_to_string_total)
    as (ret & cwd' & Hrun).
  { intros name Hin. simpl in Hin.
    apply elem_of_cons in Hin as [->|Hin]; [simpl; eauto |].
    apply list_elem_of_singleton in Hin as ->. simpl. eauto. }
  exists ret, cwd'. split; [exact Hrun |].
  exact (proj1 (parse_defaults_digests _ _ _ _ _ _ _ _ Hrun)).
Defined.

End DecomposerExtras.
